(** * Solar mini-grid technoeconomic model: scoring and financial projections

    A shallow embedding of [customer_scoring_algorithm.py] and
    [financial_projections_model.py].

    Numbers.  The Python code computes on IEEE doubles inside pandas columns.
    Here a finite double is an exact rational ([Q]); rounding error and
    overflow of the binary format are outside the model.  A missing cell
    (pandas NaN) of a raw-metric column of stage 1 is [None]; [np.log1p]
    is taken on cells above -1, where it is a number, and facts about
    log-scaled columns say so ([log_defined]).  Stage 2 also
    produces infinities and NaN on purpose (division by a zero CAPEX), so its
    cells are values of [fl], rationals extended with [PInf], [NInf] and
    [NaN].

    Tables.  A pandas column is a [list]; a data frame is a list of records,
    one per row, in row order. *)

From Stdlib Require Import QArith Qround ZArith List Bool Lia Lqa.
From Stdlib Require Import Sorting.Permutation Sorting.Sorted.
From Stdlib Require Strings.String.
Import ListNotations.

Local Open Scope Q_scope.

(* ================================================================== *)
(** * Stage 1, the Normalizer: [normalize_score] *)
(* ================================================================== *)

Module Normalizer.

(** [series.fillna(0)] on one cell. *)
Definition fillna0 (x : option Q) : Q :=
  match x with Some v => v | None => 0 end.

(** [series.min()] and [series.max()]; [None] is the NaN pandas returns for
    an empty column. *)
Fixpoint series_min (s : list Q) : option Q :=
  match s with
  | [] => None
  | x :: t =>
      match series_min t with
      | None => Some x
      | Some m => Some (if Qle_bool x m then x else m)
      end
  end.

Fixpoint series_max (s : list Q) : option Q :=
  match s with
  | [] => None
  | x :: t =>
      match series_max t with
      | None => Some x
      | Some m => Some (if Qle_bool m x then x else m)
      end
  end.

Section WithLog.

(** [np.log1p], the library's log(1+x), on the cells where it is a number,
    those above -1: any function on the rationals, and nothing below
    depends on which one.  At -1 numpy returns -inf and below -1 it returns
    NaN; a log-scaled column with such a cell is outside this model, and
    the facts about log-scaled columns assume [log_defined]. *)
Variable log1p : Q -> Q.

(** Steps 1 and 2 of [normalize_score]: the column after [fillna(0)] and,
    under [log_scale], after [np.log1p]. *)
Definition prepared (log_scale : bool) (series : list (option Q)) : list Q :=
  map (fun x => let v := fillna0 x in if log_scale then log1p v else v) series.

(** Step 3 on one cell. *)
Definition scale_cell (reverse : bool) (min_val max_val x : Q) : Q :=
  let normalized := ((x - min_val) / (max_val - min_val)) * 100 in
  if reverse then 100 - normalized else normalized.

(** [normalize_score(series, reverse, log_scale)].  On an empty column
    [min()] and [max()] are NaN, [max_val == min_val] is false, and the
    arithmetic on the empty column gives the empty column. *)
Definition normalize_score (series : list (option Q))
           (reverse log_scale : bool) : list Q :=
  let s := prepared log_scale series in
  match series_min s, series_max s with
  | Some min_val, Some max_val =>
      if Qeq_bool max_val min_val
      then repeat 50 (length s)
      else map (scale_cell reverse min_val max_val) s
  | _, _ => []
  end.

End WithLog.

(** A cell of the column is a least (greatest) value of it. *)
Definition is_least (s : list Q) (x : Q) : Prop :=
  forall y, In y s -> x <= y.

Definition is_greatest (s : list Q) (x : Q) : Prop :=
  forall y, In y s -> y <= x.

(** All cells of the column are the same number. *)
Definition all_identical (s : list Q) : Prop :=
  forall x y, In x s -> In y s -> x == y.

(** The column is one that [np.log1p] maps to numbers: under [log_scale]
    every cell, after [fillna(0)], is above -1. *)
Definition log_defined (log_scale : bool) (series : list (option Q)) : Prop :=
  log_scale = true -> Forall (fun x => -1 < fillna0 x) series.

End Normalizer.

(* ================================================================== *)
(** * Stage 1, the Viability Scorer: [calculate_viability_scores] *)
(* ================================================================== *)

Module Scorer.
Import Normalizer.

(** One feature of the input GeoJSON: identity and the raw metrics.  A raw
    metric that the feature lacks is [None]. *)
Record settlement := mkSettlement {
  name : String.string;
  pop : option Q;
  pop_den : option Q;
  nightlight_intensity : option Q;
  commercial_facilities_count : option Q;
  solar_ghi : option Q;
  distance_to_grid_km : option Q;
  schools_count : option Q;
  health_facilities_count : option Q
}.

(** The keys of the [weights] dictionary, i.e. the five sub-score columns. *)
Inductive score_column :=
| market_size_score
| revenue_potential_score
| cost_efficiency_score
| accessibility_score
| strategic_value_score.

(** The row after the five sub-scores and [total_score] are set.  [label]
    is the row's index label: [read_file] numbers the rows 0, 1, ... in
    file order and sorting moves a label with its row. *)
Record scored := mkScored {
  label : nat;
  site : settlement;
  sub_score : score_column -> Q;
  total_score : Q
}.

Inductive tier := Low | Medium | High.

(** The row as written to the output: ranked and tiered. *)
Record ranked := mkRanked {
  row : scored;
  rank : nat;
  viability_tier : option tier
}.

(** Column arithmetic of pandas on columns that share their index. *)
Fixpoint zip_with {A B C : Type} (f : A -> B -> C)
         (l1 : list A) (l2 : list B) : list C :=
  match l1, l2 with
  | a :: t1, b :: t2 => f a b :: zip_with f t1 t2
  | _, _ => []
  end.

Definition col_scale (c : list Q) (k : Q) : list Q := map (fun x => x * k) c.
Definition col_add (c1 c2 : list Q) : list Q := zip_with Qplus c1 c2.

(** [(column > 0).astype(int)]; a missing cell compares false. *)
Definition positive_flag (x : option Q) : Q :=
  match x with
  | Some v => if Qle_bool v 0 then 0 else 1
  | None => 0
  end.

(** The [weights] dictionary, in insertion order. *)
Definition weights : list (score_column * Q) :=
  [ (market_size_score, 0.25);
    (revenue_potential_score, 0.25);
    (cost_efficiency_score, 0.20);
    (accessibility_score, 0.15);
    (strategic_value_score, 0.15) ].

(** [sum(settlements[score] * weight for score, weight in weights.items())]
    on one row; Python's [sum] starts from 0 and adds left to right. *)
Definition weighted_total (sub : score_column -> Q) : Q :=
  fold_left (fun acc kw => acc + sub (fst kw) * snd kw) weights 0.

(** [pd.cut(x, bins, labels)] with the defaults [right=True] and
    [include_lowest=False]: the bin index is [bins.searchsorted(x, 'left')],
    the count of edges strictly below [x]; index 0 and index [len(bins)]
    are outside every bin and give a missing label. *)
Definition searchsorted_left (bins : list Q) (x : Q) : nat :=
  List.length (filter (fun b => negb (Qle_bool x b)) bins).

Definition cut {L : Type} (bins : list Q) (labels : list L) (x : Q)
  : option L :=
  let ids := searchsorted_left bins x in
  if orb (Nat.eqb ids 0) (Nat.eqb ids (List.length bins)) then None
  else nth_error labels (ids - 1).

Definition tier_of (total : Q) : option tier :=
  cut [0; 40; 70; 100] [Low; Medium; High] total.

(** [DataFrame.sort_values('total_score', ascending=False)].  The call names
    no [kind], so pandas sorts with its default, quicksort, which is not a
    stable sort; what the call guarantees is a reordering of the rows with
    [total_score] descending.  The interface states that much and nothing
    about the order of rows with equal scores. *)
Class SortValues := {
  sort_values : list scored -> list scored;
  sort_values_perm : forall l, Permutation l (sort_values l);
  sort_values_desc :
    forall l, StronglySorted (fun a b => total_score b <= total_score a)
                             (sort_values l)
}.

(** Two sorts that meet the interface, both by insertion: rows with equal
    scores end up in file order, or in the opposite order under
    [ties_reversed]. *)
Definition goes_behind (ties_reversed : bool) (x y : scored) : bool :=
  if ties_reversed
  then Qle_bool (total_score x) (total_score y)
  else negb (Qle_bool (total_score y) (total_score x)).

Fixpoint insert_desc (ties_reversed : bool) (x : scored) (l : list scored)
  : list scored :=
  match l with
  | [] => [x]
  | y :: t =>
      if goes_behind ties_reversed x y
      then y :: insert_desc ties_reversed x t
      else x :: l
  end.

Fixpoint insertion_sort_desc (ties_reversed : bool) (l : list scored)
  : list scored :=
  match l with
  | [] => []
  | x :: t => insert_desc ties_reversed x (insertion_sort_desc ties_reversed t)
  end.

(** The claim about ties, on an output table: of two rows with equal
    [total_score], the one earlier in the file has the smaller rank. *)
Definition ties_keep_file_order (out : list ranked) : Prop :=
  forall a b,
    In a out -> In b out ->
    total_score (row a) == total_score (row b) ->
    (label (row a) < label (row b))%nat ->
    (rank a < rank b)%nat.

(** The three metrics that are scored with [log_scale=True] are above -1
    on every row, so that [np.log1p] gives numbers. *)
Definition log_metrics_defined (t : list settlement) : Prop :=
  Forall (fun s => -1 < fillna0 (pop s) /\
                   -1 < fillna0 (pop_den s) /\
                   -1 < fillna0 (nightlight_intensity s)) t.

(** ** The sort that the call runs

    With no [kind], [sort_values] passes [kind='quicksort'] to numpy's
    [argsort] through pandas' [nargsort].  What follows is numpy's generic
    quicksort on an index array ([aquicksort] of npysort/quicksort.cpp):
    median of three, the larger partition put aside on a stack, insertion
    sort once a range has at most 17 cells, heapsort once the depth limit
    is used up.  Pointers into the index array are offsets; every scan is
    bounded by the array length, as the sentinels of the C code
    guarantee. *)

Module NumpySort.

Definition SMALL_QUICKSORT : nat := 16.

(** [a < b] on the keys. *)
Definition less (x y : Q) : bool := negb (Qle_bool y x).

Definition rd (a : list nat) (i : nat) : nat := nth i a 0%nat.

Fixpoint wr (a : list nat) (i : nat) (x : nat) : list nat :=
  match a, i with
  | [], _ => []
  | _ :: t, O => x :: t
  | y :: t, S i' => y :: wr t i' x
  end.

(** [INTP_SWAP( *pi, *pj )]. *)
Definition swap (a : list nat) (i j : nat) : list nat :=
  wr (wr a i (rd a j)) j (rd a i).

(** [v[*p]]. *)
Definition key (v : list Q) (a : list nat) (p : nat) : Q := nth (rd a p) v 0.

(** [do ++pi; while (less(v[*pi], vp))]. *)
Fixpoint scan_up (fuel : nat) (v : list Q) (a : list nat) (vp : Q) (pi : nat)
  : nat :=
  match fuel with
  | O => pi
  | S f =>
      let pi := S pi in
      if less (key v a pi) vp then scan_up f v a vp pi else pi
  end.

(** [do --pj; while (less(vp, v[*pj]))]. *)
Fixpoint scan_down (fuel : nat) (v : list Q) (a : list nat) (vp : Q) (pj : nat)
  : nat :=
  match fuel with
  | O => pj
  | S f =>
      let pj := Nat.pred pj in
      if less vp (key v a pj) then scan_down f v a vp pj else pj
  end.

(** The [for (;;)] loop of the partition; it returns the array and [pi]. *)
Fixpoint exchange (fuel : nat) (v : list Q) (a : list nat) (vp : Q)
         (pi pj : nat) : list nat * nat :=
  match fuel with
  | O => (a, pi)
  | S f =>
      let pi := scan_up (List.length a) v a vp pi in
      let pj := scan_down (List.length a) v a vp pj in
      if Nat.leb pj pi then (a, pi)
      else exchange f v (swap a pi pj) vp pi pj
  end.

(** One partition of the range [pl..pr]: median of three, the pivot
    parked at [pr - 1], the exchanges, the pivot put at [pi]. *)
Definition partition (v : list Q) (a : list nat) (pl pr : nat)
  : list nat * nat :=
  let pm := (pl + Nat.div2 (pr - pl))%nat in
  let a := if less (key v a pm) (key v a pl) then swap a pm pl else a in
  let a := if less (key v a pr) (key v a pm) then swap a pr pm else a in
  let a := if less (key v a pm) (key v a pl) then swap a pm pl else a in
  let vp := key v a pm in
  let a := swap a pm (pr - 1) in
  let '(a, pi) := exchange (List.length a) v a vp pl (pr - 1) in
  (swap a pi (pr - 1), pi).

(** The [while (pj > pl && less(vp, v[*pk]))] loop of the insertion sort. *)
Fixpoint shift_right (fuel : nat) (v : list Q) (a : list nat) (pl : nat)
         (vp : Q) (pj : nat) : list nat * nat :=
  match fuel with
  | O => (a, pj)
  | S f =>
      if andb (Nat.ltb pl pj) (less vp (key v a (pj - 1)))
      then shift_right f v (wr a pj (rd a (pj - 1))) pl vp (pj - 1)%nat
      else (a, pj)
  end.

Fixpoint insert_each (count : nat) (v : list Q) (a : list nat) (pl pi : nat)
  : list nat :=
  match count with
  | O => a
  | S c =>
      let vi := rd a pi in
      let vp := nth vi v 0 in
      let '(a, pj) := shift_right (List.length a) v a pl vp pi in
      insert_each c v (wr a pj vi) pl (S pi)
  end.

(** [for (pi = pl + 1; pi <= pr; ++pi)] on the range [pl..pr]. *)
Definition insertion (v : list Q) (a : list nat) (pl pr : nat) : list nat :=
  insert_each (pr - pl) v a pl (S pl).

(** Heapsort of the [n] cells from [pl]; the cell [a[k]] of the C code,
    which counts from 1, is the cell [pl + k - 1] here. *)
Definition hkey (v : list Q) (a : list nat) (pl k : nat) : Q :=
  key v a (pl + k - 1).

Fixpoint sift (fuel : nat) (v : list Q) (a : list nat) (pl n tmp i j : nat)
  : list nat * nat :=
  match fuel with
  | O => (a, i)
  | S f =>
      if Nat.leb j n then
        let j := if andb (Nat.ltb j n)
                         (less (hkey v a pl j) (hkey v a pl (S j)))
                 then S j else j in
        if less (nth tmp v 0) (hkey v a pl j)
        then sift f v (wr a (pl + i - 1) (rd a (pl + j - 1))) pl n tmp j (j + j)%nat
        else (a, i)
      else (a, i)
  end.

(** The inner [for (i, j = 2i; j <= n;)] loop and the final [a[i] = tmp]. *)
Definition sift_in (v : list Q) (a : list nat) (pl n tmp i : nat) : list nat :=
  let '(a, i) := sift (List.length a) v a pl n tmp i (i + i) in
  wr a (pl + i - 1) tmp.

(** [for (l = n >> 1; l > 0; --l)]. *)
Fixpoint build_heap (l : nat) (v : list Q) (a : list nat) (pl n : nat)
  : list nat :=
  match l with
  | O => a
  | S l' => build_heap l' v (sift_in v a pl n (rd a (pl + l - 1)) l) pl n
  end.

(** [for (; n > 1;)]. *)
Fixpoint drain_heap (fuel : nat) (v : list Q) (a : list nat) (pl n : nat)
  : list nat :=
  match fuel with
  | O => a
  | S f =>
      if Nat.ltb 1 n then
        let tmp := rd a (pl + n - 1) in
        let a := wr a (pl + n - 1) (rd a pl) in
        drain_heap f v (sift_in v a pl (n - 1) tmp 1) pl (n - 1)%nat
      else a
  end.

Definition aheapsort (v : list Q) (a : list nat) (pl n : nat) : list nat :=
  drain_heap n v (build_heap (Nat.div2 n) v a pl n) pl n.

(** The outer loop.  [checked] tells the top of [while (1)], where the
    depth limit is tested, from the inner [while], where it is not; the
    stack holds the ranges put aside with the depth left for each. *)
Fixpoint sort_ranges (fuel : nat) (v : list Q) (a : list nat) (pl pr : nat)
         (stack : list (nat * nat * Z)) (cdepth : Z) (checked : bool)
  : list nat :=
  match fuel with
  | O => a
  | S f =>
      let pop a :=
        match stack with
        | [] => a
        | (pl', pr', d) :: rest => sort_ranges f v a pl' pr' rest d true
        end in
      if andb checked (Z.ltb cdepth 0)
      then pop (aheapsort v a pl (pr - pl + 1))
      else if Nat.ltb SMALL_QUICKSORT (pr - pl)
      then
        let '(a, pi) := partition v a pl pr in
        let d := (cdepth - 1)%Z in
        if Nat.ltb (pi - pl) (pr - pi)
        then sort_ranges f v a pl (pi - 1)%nat ((S pi, pr, d) :: stack) d false
        else sort_ranges f v a (S pi) pr ((pl, (pi - 1)%nat, d) :: stack) d false
      else pop (insertion v a pl pr)
  end.

(** [np.argsort(v, kind='quicksort')]: the positions of [v] in ascending
    order of their keys. *)
Definition argsort (v : list Q) : list nat :=
  let num := List.length v in
  sort_ranges (num + num + 1) v (seq 0 num) 0 (num - 1) []
              (2 * Z.log2 (Z.of_nat num))%Z true.

(** pandas' [nargsort(items, kind, ascending=False)] on a column without
    missing cells: the column and its positions are reversed, sorted
    ascending, and the result is reversed. *)
Definition nargsort_desc (items : list Q) : list nat :=
  let positions := rev (seq 0 (List.length items)) in
  rev (map (fun k => nth k positions 0%nat) (argsort (rev items))).

(** [DataFrame.take(indexer)]. *)
Definition take {A : Type} (rows : list A) (indexer : list nat) : list A :=
  flat_map (fun i => match nth_error rows i with
                     | Some r => [r]
                     | None => []
                     end) indexer.

End NumpySort.

(** [settlements.sort_values('total_score', ascending=False)] as pandas
    and numpy run it; [total_score] has no missing cell here. *)
Definition pandas_sort_values (rows : list scored) : list scored :=
  NumpySort.take rows (NumpySort.nargsort_desc (map total_score rows)).

Section WithLibrary.

Variable log1p : Q -> Q.
Context {sorter : SortValues}.

Definition market_size_column (t : list settlement) : list Q :=
  col_add (col_scale (normalize_score log1p (map pop t) false true) 0.7)
          (col_scale (normalize_score log1p (map pop_den t) false true) 0.3).

Definition revenue_potential_column (t : list settlement) : list Q :=
  col_add (col_scale (normalize_score log1p (map nightlight_intensity t) false true) 0.6)
          (col_scale (normalize_score log1p (map commercial_facilities_count t) false false) 0.4).

Definition cost_efficiency_column (t : list settlement) : list Q :=
  col_add (col_scale (normalize_score log1p (map solar_ghi t) false false) 0.7)
          (col_scale (normalize_score log1p (map distance_to_grid_km t) false false) 0.3).

Definition accessibility_column (t : list settlement) : list Q :=
  col_add
    (col_add (col_scale (normalize_score log1p (map schools_count t) false false) 0.4)
             (col_scale (normalize_score log1p (map health_facilities_count t) false false) 0.4))
    (col_scale (normalize_score log1p (map commercial_facilities_count t) false false) 0.2).

Definition strategic_value_column (t : list settlement) : list Q :=
  col_add (col_scale (map positive_flag (map health_facilities_count t)) 60)
          (col_scale (map positive_flag (map schools_count t)) 40).

(** The row built from a feature and its cell in each sub-score column. *)
Definition mk_scored (i : nat) (s : settlement) (m r c a v : Q) : scored :=
  let sub k :=
    match k with
    | market_size_score => m
    | revenue_potential_score => r
    | cost_efficiency_score => c
    | accessibility_score => a
    | strategic_value_score => v
    end in
  mkScored i s sub (weighted_total sub).

Definition apply_column {A B : Type} (fs : list (A -> B)) (c : list A)
  : list B :=
  zip_with (fun f x => f x) fs c.

(** The table after the [total_score] column is set (source lines 58-110). *)
Definition score_table (t : list settlement) : list scored :=
  apply_column
    (apply_column
       (apply_column
          (apply_column
             (apply_column
                (zip_with mk_scored (seq 0 (List.length t)) t)
                (market_size_column t))
             (revenue_potential_column t))
          (cost_efficiency_column t))
       (accessibility_column t))
    (strategic_value_column t).

(** [settlements['rank'] = range(1, len(settlements) + 1)] and the tier
    column, on the sorted table. *)
Definition rank_and_tier (sorted : list scored) : list ranked :=
  zip_with (fun r k => mkRanked r k (tier_of (total_score r)))
           sorted (seq 1 (List.length sorted)).

(** The table that [calculate_viability_scores] writes, from the table it
    reads. *)
Definition calculate_viability_scores (t : list settlement) : list ranked :=
  rank_and_tier (sort_values (score_table t)).

(** The same with the sort that pandas runs in place of the interface. *)
Definition viability_scores_as_run (t : list settlement) : list ranked :=
  rank_and_tier (pandas_sort_values (score_table t)).

End WithLibrary.

(** ** Small tables for the examples *)

Module Examples.
Import Strings.String.
Local Open Scope string_scope.

(** Two features with the same metrics. *)
Definition twin (n : string) : settlement :=
  mkSettlement n (Some 800) (Some 120) (Some 3) (Some 4) (Some 5.5)
               (Some 12) (Some 1) (Some 1).

Definition twins : list settlement := [twin "first"; twin "second"].


(** A feature that is above another in every metric. *)
Definition strong_site : settlement :=
  mkSettlement "strong" (Some 5000) (Some 300) (Some 9) (Some 12) (Some 6.1)
               (Some 40) (Some 2) (Some 1).

Definition weak_site : settlement :=
  mkSettlement "weak" (Some 100) (Some 10) (Some 1) (Some 0) (Some 4.2)
               (Some 3) (Some 0) (Some 0).

Definition strong_and_weak : list settlement := [strong_site; weak_site].

End Examples.

End Scorer.

(* ================================================================== *)
(** * Stage 2: extended rationals for the cells of the financial table *)
(* ================================================================== *)

Module Cell.

(** A float cell: a finite value, an infinity, or NaN (also the missing
    value of pandas).  Zero carries no sign: a zero divisor counts as +0. *)
Inductive fl :=
| Fin (q : Q)
| PInf
| NInf
| NaN.

Definition inf_of_sign (c : comparison) : fl :=
  match c with Gt => PInf | Lt => NInf | Eq => NaN end.

Definition sign_mul (a b : comparison) : comparison :=
  match a, b with
  | Eq, _ | _, Eq => Eq
  | Gt, Gt | Lt, Lt => Gt
  | _, _ => Lt
  end.

Definition sgn (a : fl) : comparison :=
  match a with
  | Fin q => q ?= 0
  | PInf => Gt
  | NInf => Lt
  | NaN => Eq
  end.

Definition fopp (a : fl) : fl :=
  match a with
  | Fin q => Fin (- q)
  | PInf => NInf
  | NInf => PInf
  | NaN => NaN
  end.

Definition fadd (a b : fl) : fl :=
  match a, b with
  | NaN, _ | _, NaN => NaN
  | Fin x, Fin y => Fin (x + y)
  | PInf, NInf | NInf, PInf => NaN
  | PInf, _ | _, PInf => PInf
  | NInf, _ | _, NInf => NInf
  end.

Definition fsub (a b : fl) : fl := fadd a (fopp b).

Definition fmul (a b : fl) : fl :=
  match a, b with
  | NaN, _ | _, NaN => NaN
  | Fin x, Fin y => Fin (x * y)
  | _, _ => inf_of_sign (sign_mul (sgn a) (sgn b))
  end.

Definition fdiv (a b : fl) : fl :=
  match a, b with
  | NaN, _ | _, NaN => NaN
  | Fin x, Fin y =>
      if Qeq_bool y 0 then inf_of_sign (x ?= 0) else Fin (x / y)
  | Fin _, _ => Fin 0
  | _, Fin y => inf_of_sign (sign_mul (sgn a)
                                      (if Qeq_bool y 0 then Gt else y ?= 0))
  | _, _ => NaN
  end.

(** [a < b]; every comparison with NaN is false. *)
Definition flt (a b : fl) : bool :=
  match a, b with
  | NaN, _ | _, NaN => false
  | Fin x, Fin y => negb (Qle_bool y x)
  | NInf, NInf | PInf, _ | _, NInf => false
  | _, _ => true
  end.

Definition fgt (a b : fl) : bool := flt b a.

(** [Series.fillna(v)]. *)
Definition fillna (v : Q) (a : fl) : fl :=
  match a with NaN => Fin v | _ => a end.

(** [Series.replace(old, new)] for a finite [old]. *)
Definition replace_value (old new : Q) (a : fl) : fl :=
  match a with
  | Fin q => if Qeq_bool q old then Fin new else a
  | _ => a
  end.

(** [Series.replace([np.inf, -np.inf], new)]. *)
Definition replace_inf (new : Q) (a : fl) : fl :=
  match a with PInf | NInf => Fin new | _ => a end.

(** [Series.astype(int)] on one cell: the C cast truncates toward zero; a
    NaN or infinite cell makes pandas raise, here [None]. *)
Definition astype_int (a : fl) : option Z :=
  match a with
  | Fin q => Some (Z.quot (Qnum q) (Z.pos (Qden q)))
  | _ => None
  end.

(** The integer next to [x] on the side of zero. *)
Definition toward_zero (x : Q) : Z :=
  if Qle_bool 0 x then Qfloor x else Qceiling x.

(** [np.rint]: the nearest integer, ties to the even one. *)
Definition rint (q : Q) : Z :=
  let f := Qfloor q in
  match ((q - inject_Z f) ?= (1 # 2))%Q with
  | Lt => f
  | Gt => (f + 1)%Z
  | Eq => if Z.even f then f else (f + 1)%Z
  end.

(** [DataFrame.round(1)] on one cell: numpy scales by 10, takes [rint] and
    scales back; NaN and the infinities stay. *)
Definition round1 (a : fl) : fl :=
  match a with
  | Fin q => Fin (inject_Z (rint (q * 10)) / 10)
  | _ => a
  end.

(** A cell holds this finite value. *)
Definition holds (a : fl) (v : Q) : Prop :=
  match a with Fin q => q == v | _ => False end.

(** A cell holds a finite value with at most one decimal place. *)
Definition one_decimal (a : fl) : Prop :=
  match a with
  | Fin q => exists z : Z, q * 10 == inject_Z z
  | _ => False
  end.

Definition is_finite (a : fl) : Prop :=
  match a with Fin _ => True | _ => False end.

(** A cell that is 0 or undefined. *)
Definition zero_or_nan (z : fl) : Prop :=
  match z with Fin q => q == 0 | NaN => True | _ => False end.

End Cell.

(* ================================================================== *)
(** * Stage 2: [run_financial_projections] *)
(* ================================================================== *)

Module Finance.
Import Cell.

(** ** The module-level assumptions *)

Definition CUSTOMER_PENETRATION : Q := 0.30.
Definition AVG_HOUSEHOLD_SIZE : Q := 5.
Definition DAILY_KWH_PER_CUSTOMER : Q := 1.0.
Definition SYSTEM_OVERSIZING : Q := 1.45.
Definition BASELINE_GHI : Q := 5.5.
Definition CAPEX_PER_KW : Q := 3000.0.
Definition OPEX_PERCENT : Q := 0.04.
Definition TARIFF_PER_KWH : Q := 0.60.
Definition COLLECTION_RATE : Q := 0.85.
Definition DISCOUNT_RATE : Q := 0.12.
Definition PROJECT_LIFETIME : Z := 10.

(** ** Rows *)

(** One feature of the scored GeoJSON, with the columns stage 2 reads. *)
Record site := mkSite {
  name : String.string;
  state : String.string;
  pop : fl;
  solar_ghi : fl;
  distance_to_grid_km : fl
}.

(** The row once every stage-2 column is set. *)
Record projection := mkProjection {
  origin : site;
  estimated_customers : Z;
  estimated_demand_kwh_day : fl;
  system_size_kw : fl;
  capex_estimate_usd : fl;
  opex_annual_usd : fl;
  revenue_annual_usd : fl;
  annual_cashflow_usd : fl;
  payback_years : fl;
  npv_10yr_usd : fl;
  simple_yield_percent : fl
}.

Definition frame := list projection.

(** ** Phases 1 to 3 on one row (source lines 44-94) *)

Definition annuity_factor : Q :=
  (1 - (1 + DISCOUNT_RATE) ^ (- PROJECT_LIFETIME)) / DISCOUNT_RATE.

(** [np.where(annual_cashflow > 0, capex / annual_cashflow, 999)]. *)
Definition payback_of (capex annual_cashflow : fl) : fl :=
  if fgt annual_cashflow (Fin 0) then fdiv capex annual_cashflow
  else Fin 999.

(** Lines 92 and 94: the ratio, then infinities and NaN replaced by 0. *)
Definition yield_of (capex annual_cashflow : fl) : fl :=
  fillna 0 (replace_inf 0 (fmul (fdiv annual_cashflow capex) (Fin 100))).

(** All the columns of one row; [None] when [astype(int)] raises, which
    aborts the run. *)
Definition project (s : site) : option projection :=
  let households := fdiv (pop s) (Fin AVG_HOUSEHOLD_SIZE) in
  match astype_int (fmul households (Fin CUSTOMER_PENETRATION)) with
  | None => None
  | Some customers =>
      let demand := fmul (Fin (inject_Z customers)) (Fin DAILY_KWH_PER_CUSTOMER) in
      let ghi_factor :=
        fdiv (replace_value 0 BASELINE_GHI (fillna BASELINE_GHI (solar_ghi s)))
             (Fin BASELINE_GHI) in
      let system_size :=
        fmul (fdiv demand (fmul ghi_factor (Fin 4))) (Fin SYSTEM_OVERSIZING) in
      let logistics_mult :=
        fadd (Fin 1)
             (fmul (fdiv (distance_to_grid_km s) (Fin 100)) (Fin 0.1)) in
      let capex := fmul (fmul system_size (Fin CAPEX_PER_KW)) logistics_mult in
      let opex := fmul capex (Fin OPEX_PERCENT) in
      let annual_energy_sales := fmul demand (Fin 365) in
      let revenue :=
        fmul (fmul annual_energy_sales (Fin TARIFF_PER_KWH))
             (Fin COLLECTION_RATE) in
      let annual_cashflow := fsub revenue opex in
      let npv := fadd (fopp capex) (fmul annual_cashflow (Fin annuity_factor)) in
      Some (mkProjection s customers demand system_size capex opex revenue
              annual_cashflow (payback_of capex annual_cashflow) npv
              (yield_of capex annual_cashflow))
  end.

(** A column operation that raises on one row raises for the table. *)
Fixpoint project_all (t : list site) : option frame :=
  match t with
  | [] => Some []
  | s :: rest =>
      match project s, project_all rest with
      | Some p, Some ps => Some (p :: ps)
      | _, _ => None
      end
  end.

(** ** Phase 4 on one row *)

(** The mask of lines 100-101. *)
Definition is_viable (p : projection) : bool :=
  andb (fgt (npv_10yr_usd p) (Fin 0)) (flt (payback_years p) (Fin 7)).

(** [settlements[cols_to_round] = settlements[cols_to_round].round(1)]:
    the six listed columns are rounded, the others are left as they are. *)
Definition round_columns (p : projection) : projection :=
  mkProjection (origin p) (estimated_customers p) (estimated_demand_kwh_day p)
    (round1 (system_size_kw p))
    (round1 (capex_estimate_usd p))
    (opex_annual_usd p)
    (round1 (revenue_annual_usd p))
    (annual_cashflow_usd p)
    (round1 (payback_years p))
    (round1 (npv_10yr_usd p))
    (round1 (simple_yield_percent p)).

(** ** The data frames as objects

    [settlements] and [viable_sites] are names bound to data-frame objects.
    The store maps object identities to frames, so that a write through one
    name is visible through every name bound to the same object and through
    no other. *)

Definition ref := nat.
Definition store := list frame.

(** A step of the run: it reads and writes the store and may raise. *)
Definition M (A : Type) : Type := store -> option (A * store).

Definition ret {A : Type} (a : A) : M A := fun h => Some (a, h).

Definition bind {A B : Type} (m : M A) (k : A -> M B) : M B :=
  fun h => match m h with
           | Some (a, h') => k a h'
           | None => None
           end.

Definition raise {A : Type} : M A := fun _ => None.

Definition lift {A : Type} (o : option A) : M A :=
  match o with Some a => ret a | None => raise end.

(** A new object holding [f]. *)
Definition alloc (f : frame) : M ref :=
  fun h => Some (List.length h, h ++ [f]).

Definition load (r : ref) : M frame :=
  fun h => match nth_error h r with
           | Some f => Some (f, h)
           | None => None
           end.

Fixpoint overwrite (h : store) (r : ref) (f : frame) : option store :=
  match h, r with
  | [], _ => None
  | _ :: t, O => Some (f :: t)
  | g :: t, S r' =>
      match overwrite t r' f with
      | Some t' => Some (g :: t')
      | None => None
      end
  end.

(** The object [r] now holds [f]. *)
Definition save (r : ref) (f : frame) : M unit :=
  fun h => match overwrite h r f with
           | Some h' => Some (tt, h')
           | None => None
           end.

Declare Scope run_scope.
Delimit Scope run_scope with run.
Notation "x <- m ;; k" := (bind m (fun x => k))
  (at level 61, m at next level, right associativity) : run_scope.
Notation "m ;; k" := (bind m (fun _ => k))
  (at level 61, right associativity) : run_scope.
Local Open Scope run_scope.

(** Lines 33-94: load the table and set every column; [settlements] is the
    resulting object. *)
Definition phase_annotate (input : list site) : M ref :=
  t <- lift (project_all input) ;;
  alloc t.

(** Lines 99-102: boolean indexing builds a new frame and [.copy()] a
    second one, which [viable_sites] names. *)
Definition phase_filter (settlements : ref) : M ref :=
  t <- load settlements ;;
  selected <- alloc (filter is_viable t) ;;
  s <- load selected ;;
  alloc s.

(** Lines 105-106: the rounded columns are written back into the object
    that [settlements] names. *)
Definition phase_round (settlements : ref) : M unit :=
  t <- load settlements ;;
  save settlements (map round_columns t).

(** Lines 127 and 130: the GeoJSON gets [settlements], the CSV gets
    [viable_sites]. *)
Definition phase_export (settlements viable_sites : ref)
  : M (frame * frame) :=
  full <- load settlements ;;
  viable <- load viable_sites ;;
  ret (full, viable).

Definition run (input : list site) : M (frame * frame) :=
  settlements <- phase_annotate input ;;
  viable_sites <- phase_filter settlements ;;
  phase_round settlements ;;
  phase_export settlements viable_sites.

(** The two files written by [run_financial_projections], from the table
    it reads: the full GeoJSON and the viable CSV. *)
Definition run_financial_projections (input : list site)
  : option (frame * frame) :=
  match run input [] with
  | Some (out, _) => Some out
  | None => None
  end.

(** The table as it stands after line 94, before filtering and rounding. *)
Definition annotated (input : list site) : option frame :=
  project_all input.

(** ** The console summary (source lines 108-121)

    The summary is computed between the rounding and the two writes, so an
    exception in it leaves no file written. *)

(** The order of [sort_values(..., ascending=False)] on a float column:
    [a] may stand before [b] when [b] is missing (missing cells go last) or
    when neither is missing and [a] is not below [b]. *)
Definition before_desc (a b : fl) : bool :=
  match a, b with
  | _, NaN => true
  | NaN, _ => false
  | _, _ => negb (flt a b)
  end.

(** [viable_sites[available_cols].sort_values('npv_10yr_usd',
    ascending=False)]: as for stage 1, a reordering with the NPV
    descending, whatever the order of equal values. *)
Class SortNpv := {
  sort_npv : frame -> frame;
  sort_npv_perm : forall l, Permutation l (sort_npv l);
  sort_npv_desc :
    forall l, StronglySorted
                (fun a b => before_desc (npv_10yr_usd a) (npv_10yr_usd b) = true)
                (sort_npv l)
}.

(** [Series.sum()]: missing cells are skipped. *)
Definition column_sum (c : list fl) : fl :=
  fold_left (fun acc x => match x with NaN => acc | _ => fadd acc x end)
            c (Fin 0).

(** What the summary prints. *)
Record report := mkReport {
  total_sites : nat;
  bankable : nat;
  bankable_share : Q;
  total_capex_million : fl;
  top_sites : frame
}.

(** [len(viable_sites) / len(settlements)] on Python integers raises
    [ZeroDivisionError] when the table has no rows. *)
Definition phase_summary {by_npv : SortNpv} (settlements viable_sites : ref)
  : M report :=
  bind (load settlements) (fun t =>
  bind (load viable_sites) (fun v =>
  if Nat.eqb (List.length t) 0 then raise
  else ret (mkReport
              (List.length t)
              (List.length v)
              (inject_Z (Z.of_nat (List.length v))
               / inject_Z (Z.of_nat (List.length t)))
              (fdiv (column_sum (map capex_estimate_usd v)) (Fin 1000000))
              (firstn 5 (sort_npv v))))).

(** The whole of [run_financial_projections] on a table that has the
    columns it reads: the two files and the summary, or [None] when the run
    raises.  A table that lacks a column is not a [list site]; the KeyError
    it would raise has no counterpart here. *)
Definition run_with_report {by_npv : SortNpv} (input : list site)
  : option (frame * frame * report) :=
  match
    bind (phase_annotate input) (fun settlements =>
    bind (phase_filter settlements) (fun viable_sites =>
    bind (phase_round settlements) (fun _ =>
    bind (phase_summary settlements viable_sites) (fun r =>
    bind (phase_export settlements viable_sites) (fun out =>
    ret (out, r)))))) []
  with
  | Some (x, _) => Some x
  | None => None
  end.

(** Two rows in the order of a descending NPV. *)
Definition npv_desc (a b : projection) : Prop :=
  before_desc (npv_10yr_usd a) (npv_10yr_usd b) = true.

(** A sort by insertion that meets [SortNpv]. *)
Fixpoint insert_npv (x : projection) (l : frame) : frame :=
  match l with
  | [] => [x]
  | y :: t =>
      if before_desc (npv_10yr_usd y) (npv_10yr_usd x)
      then y :: insert_npv x t
      else x :: l
  end.

Fixpoint insertion_sort_npv (l : frame) : frame :=
  match l with
  | [] => []
  | x :: t => insert_npv x (insertion_sort_npv t)
  end.

(** ** Sample sites for the examples *)

Module Sites.
Import Strings.String.
Local Open Scope string_scope.

(** The scenario of the sizing rule: 1000 people at the baseline GHI. *)
Definition village : site := mkSite "village" "Kano" (Fin 1000) (Fin 5.5) (Fin 0).
(** The same, one kilometre from the grid. *)
Definition roadside : site := mkSite "roadside" "Kano" (Fin 1000) (Fin 5.5) (Fin 1).
Definition hamlet : site := mkSite "hamlet" "Kano" (Fin 100) (Fin 5.5) (Fin 0).
(** Strong sun: positive NPV and a short payback. *)
Definition sunny : site := mkSite "sunny" "Sokoto" (Fin 1000) (Fin 7) (Fin 0).
(** A single customer whose NPV is a few cents. *)
Definition marginal : site := mkSite "marginal" "Sokoto" (Fin 20) (Fin 7) (Fin 4).
Definition deserted : site := mkSite "deserted" "Yobe" (Fin 0) NaN (Fin 250).
(** A population recorded below zero. *)
Definition misrecorded : site :=
  mkSite "misrecorded" "Yobe" (Fin (-10)) (Fin 5.5) (Fin 0).

(** A table as it stands after line 94. *)
Definition sample_frame : frame :=
  match annotated [sunny; hamlet] with Some a => a | None => [] end.

End Sites.

End Finance.

(* ================================================================== *)
(** * Comparisons on the rationals *)
(* ================================================================== *)

Lemma Qle_bool_false (x y : Q) : Qle_bool x y = false -> y < x.
Proof.
  intros H. apply Qnot_le_lt. intros Hle.
  apply Qle_bool_iff in Hle. congruence.
Qed.

(* ================================================================== *)
(** * Facts about the Normalizer *)
(* ================================================================== *)

Module NormalizerFacts.
Import Normalizer.

Lemma series_min_none (s : list Q) : series_min s = None -> s = [].
Proof.
  destruct s as [|x t]; [reflexivity|]. simpl.
  destruct (series_min t); discriminate.
Qed.

Lemma series_max_none (s : list Q) : series_max s = None -> s = [].
Proof.
  destruct s as [|x t]; [reflexivity|]. simpl.
  destruct (series_max t); discriminate.
Qed.

(** [min()] returns a cell of the column that no cell is below. *)
Lemma series_min_least (s : list Q) (m : Q) :
  series_min s = Some m -> In m s /\ is_least s m.
Proof.
  revert m. induction s as [|x t IH]; intros m; simpl; [discriminate|].
  destruct (series_min t) as [m'|] eqn:Ht.
  - destruct (IH m' eq_refl) as [Hin Hle].
    intros [= <-]. destruct (Qle_bool x m') eqn:Hc.
    + apply Qle_bool_iff in Hc. split; [now left|].
      intros y [<-|Hy]; [apply Qle_refl|].
      eapply Qle_trans; [exact Hc | now apply Hle].
    + apply Qle_bool_false in Hc. split; [now right|].
      intros y [<-|Hy]; [now apply Qlt_le_weak | now apply Hle].
  - apply series_min_none in Ht. subst t. intros [= <-].
    split; [now left|]. intros y [<-|[]]. apply Qle_refl.
Qed.

Lemma series_max_greatest (s : list Q) (m : Q) :
  series_max s = Some m -> In m s /\ is_greatest s m.
Proof.
  revert m. induction s as [|x t IH]; intros m; simpl; [discriminate|].
  destruct (series_max t) as [m'|] eqn:Ht.
  - destruct (IH m' eq_refl) as [Hin Hle].
    intros [= <-]. destruct (Qle_bool m' x) eqn:Hc.
    + apply Qle_bool_iff in Hc. split; [now left|].
      intros y [<-|Hy]; [apply Qle_refl|].
      eapply Qle_trans; [now apply Hle | exact Hc].
    + apply Qle_bool_false in Hc. split; [now right|].
      intros y [<-|Hy]; [now apply Qlt_le_weak | now apply Hle].
  - apply series_max_none in Ht. subst t. intros [= <-].
    split; [now left|]. intros y [<-|[]]. apply Qle_refl.
Qed.

(** Min-max scaling of a cell between the bounds. *)
Lemma scale_cell_range (reverse : bool) (mn mx x : Q) :
  mn < mx -> mn <= x -> x <= mx ->
  0 <= scale_cell reverse mn mx x <= 100.
Proof.
  intros Hd Hlo Hhi. unfold scale_cell.
  assert (Hpos : 0 < mx - mn) by lra.
  assert (H0 : 0 <= (x - mn) / (mx - mn)).
  { apply Qle_shift_div_l; [exact Hpos | lra]. }
  assert (H1 : (x - mn) / (mx - mn) <= 1).
  { apply Qle_shift_div_r; [exact Hpos | lra]. }
  destruct reverse; lra.
Qed.

Lemma scale_cell_at_min (reverse : bool) (mn mx x : Q) :
  mn < mx -> x == mn ->
  scale_cell reverse mn mx x == if reverse then 100 else 0.
Proof.
  intros Hd Hx. unfold scale_cell.
  assert (Hz : (x - mn) / (mx - mn) == 0).
  { rewrite Hx. field. lra. }
  destruct reverse; rewrite Hz; ring.
Qed.

Lemma scale_cell_at_max (reverse : bool) (mn mx x : Q) :
  mn < mx -> x == mx ->
  scale_cell reverse mn mx x == if reverse then 0 else 100.
Proof.
  intros Hd Hx. unfold scale_cell.
  assert (Hz : (x - mn) / (mx - mn) == 1).
  { rewrite Hx. field. lra. }
  destruct reverse; rewrite Hz; ring.
Qed.

Section WithLog.
Variable log1p : Q -> Q.

Lemma normalize_score_length series reverse log_scale :
  List.length (normalize_score log1p series reverse log_scale)
  = List.length series.
Proof.
  unfold normalize_score.
  assert (Hl : List.length (prepared log1p log_scale series) = List.length series)
    by apply length_map.
  set (s := prepared log1p log_scale series) in *.
  destruct (series_min s) as [mn|] eqn:Hmin.
  - destruct (series_max s) as [mx|] eqn:Hmax.
    + destruct (Qeq_bool mx mn).
      * now rewrite repeat_length.
      * now rewrite length_map.
    + apply series_max_none in Hmax. rewrite Hmax in Hl. now rewrite <- Hl.
  - apply series_min_none in Hmin. rewrite Hmin in Hl. now rewrite <- Hl.
Qed.

(** The column where [max_val == min_val] fails: every cell is scaled. *)
Lemma normalize_score_scaled series reverse log_scale :
  let s := prepared log1p log_scale series in
  ~ all_identical s ->
  exists mn mx,
    series_min s = Some mn /\ series_max s = Some mx /\ mn < mx /\
    normalize_score log1p series reverse log_scale
    = map (scale_cell reverse mn mx) s.
Proof.
  intros s Hne. unfold normalize_score. fold s.
  destruct (series_min s) as [mn|] eqn:Hmin.
  2:{ apply series_min_none in Hmin. exfalso. apply Hne.
      rewrite Hmin. intros x y []. }
  destruct (series_max s) as [mx|] eqn:Hmax.
  2:{ apply series_max_none in Hmax. exfalso. apply Hne.
      rewrite Hmax. intros x y []. }
  destruct (series_min_least _ _ Hmin) as [Hmn_in Hmn].
  destruct (series_max_greatest _ _ Hmax) as [Hmx_in Hmx].
  exists mn, mx. repeat split; try reflexivity.
  - destruct (Qlt_le_dec mn mx) as [Hlt|Hge]; [exact Hlt|].
    exfalso. apply Hne. intros x y Hx Hy.
    pose proof (Hmn x Hx). pose proof (Hmx x Hx).
    pose proof (Hmn y Hy). pose proof (Hmx y Hy). lra.
  - destruct (Qeq_bool mx mn) eqn:He; [|reflexivity].
    apply Qeq_bool_iff in He.
    exfalso. apply Hne. intros x y Hx Hy.
    pose proof (Hmn x Hx). pose proof (Hmx x Hx).
    pose proof (Hmn y Hy). pose proof (Hmx y Hy). lra.
Qed.

Lemma normalize_score_degenerate series reverse log_scale :
  let s := prepared log1p log_scale series in
  all_identical s ->
  normalize_score log1p series reverse log_scale
  = repeat 50 (List.length s).
Proof.
  intros s Hall. unfold normalize_score. fold s.
  destruct (series_min s) as [mn|] eqn:Hmin.
  2:{ apply series_min_none in Hmin. rewrite Hmin.
      destruct (series_max []); reflexivity. }
  destruct (series_max s) as [mx|] eqn:Hmax.
  2:{ apply series_max_none in Hmax. now rewrite Hmax. }
  destruct (series_min_least _ _ Hmin) as [Hmn_in _].
  destruct (series_max_greatest _ _ Hmax) as [Hmx_in _].
  assert (He : Qeq_bool mx mn = true)
    by (apply Qeq_bool_iff; now apply Hall).
  now rewrite He.
Qed.

(** Every cell of a normalized column lies in [0,100]. *)
Lemma normalize_score_range series reverse log_scale :
  Forall (fun y => 0 <= y <= 100)
         (normalize_score log1p series reverse log_scale).
Proof.
  unfold normalize_score.
  set (s := prepared log1p log_scale series).
  destruct (series_min s) as [mn|] eqn:Hmin; [|constructor].
  destruct (series_max s) as [mx|] eqn:Hmax; [|constructor].
  destruct (series_min_least _ _ Hmin) as [Hmn_in Hmn].
  destruct (series_max_greatest _ _ Hmax) as [Hmx_in Hmx].
  destruct (Qeq_bool mx mn) eqn:He.
  - apply Forall_forall. intros y Hy. apply repeat_spec in Hy. subst y. lra.
  - apply Forall_forall. intros y Hy. apply in_map_iff in Hy.
    destruct Hy as [x [<- Hx]].
    assert (Hlt : mn < mx).
    { destruct (Qlt_le_dec mn mx) as [Hlt|Hge]; [exact Hlt|].
      pose proof (Hmn mx Hmx_in).
      assert (mx == mn) by lra. apply Qeq_bool_iff in H0. congruence. }
    apply scale_cell_range; [exact Hlt | now apply Hmn | now apply Hmx].
Qed.

End WithLog.

(** C1: for a column that [np.log1p] maps to numbers (no log-scaled cell at
    or below -1): when it is not constant after [fillna(0)] and the
    optional [log1p], it is scaled into [0,100] cell by cell, a least cell
    to 0 and a greatest cell to 100 (to 100 and 0 under [reverse]); a
    constant column becomes 50 in every cell.  The result has one cell per
    input cell. *)
Theorem normalize_score_spec :
  forall (log1p : Q -> Q) (series : list (option Q)) (reverse log_scale : bool),
    log_defined log_scale series ->
    let s := prepared log1p log_scale series in
    let out := normalize_score log1p series reverse log_scale in
    List.length out = List.length series /\
    (all_identical s -> out = repeat 50 (List.length series)) /\
    (~ all_identical s ->
     forall i x, nth_error s i = Some x ->
       exists y, nth_error out i = Some y /\
                 0 <= y <= 100 /\
                 (is_least s x -> y == if reverse then 100 else 0) /\
                 (is_greatest s x -> y == if reverse then 0 else 100)).
Proof.
  intros log1p series reverse log_scale _ s out.
  split; [apply normalize_score_length|]. split.
  - intros Hall. unfold out.
    rewrite normalize_score_degenerate by exact Hall.
    unfold prepared. now rewrite length_map.
  - intros Hne i x Hi.
    destruct (normalize_score_scaled log1p series reverse log_scale Hne)
      as [mn [mx [Hmin [Hmax [Hlt Hout]]]]].
    fold s in Hmin, Hmax, Hout. fold out in Hout.
    destruct (series_min_least _ _ Hmin) as [Hmn_in Hmn].
    destruct (series_max_greatest _ _ Hmax) as [Hmx_in Hmx].
    assert (Hx : In x s) by (eapply nth_error_In; exact Hi).
    exists (scale_cell reverse mn mx x). repeat split.
    + rewrite Hout. now apply map_nth_error.
    + apply scale_cell_range; [exact Hlt | now apply Hmn | now apply Hmx].
    + apply scale_cell_range; [exact Hlt | now apply Hmn | now apply Hmx].
    + intros Hleast. apply scale_cell_at_min; [exact Hlt|].
      apply Qle_antisym; [now apply Hleast | now apply Hmn].
    + intros Hgreatest. apply scale_cell_at_max; [exact Hlt|].
      apply Qle_antisym; [now apply Hmx | now apply Hgreatest].
Qed.

(** C1 on the log-scaled column 10, missing, 30. *)
Lemma normalize_score_spec_witness :
  let series := [Some 10; None; Some 30] in
  let s := prepared (fun x => x) true series in
  let out := normalize_score (fun x => x) series false true in
  List.length out = List.length series /\
  (all_identical s -> out = repeat 50 (List.length series)) /\
  (~ all_identical s ->
   forall i x, nth_error s i = Some x ->
     exists y, nth_error out i = Some y /\
               0 <= y <= 100 /\
               (is_least s x -> y == 0) /\
               (is_greatest s x -> y == 100)).
Proof.
  apply (normalize_score_spec (fun x => x) [Some 10; None; Some 30] false true).
  intros _. repeat constructor.
Defined.

(** ** Reversal, order and units *)

Lemma Forall2_repeat_same {A : Type} (R : A -> A -> Prop) (x y : A) (n : nat) :
  R x y -> Forall2 R (repeat x n) (repeat y n).
Proof. intros H. induction n; simpl; constructor; auto. Qed.

Lemma Forall2_map_same {A B : Type} (R : B -> B -> Prop) (f g : A -> B)
      (l : list A) :
  (forall x, In x l -> R (f x) (g x)) -> Forall2 R (map f l) (map g l).
Proof.
  induction l as [|a t IH]; intros H; simpl; constructor.
  - apply H. now left.
  - apply IH. intros x Hx. apply H. now right.
Qed.

(** X3: [reverse=True] is the complement to 100 of the plain score, cell by
    cell, on every column; on a constant column both are 50. *)
Theorem normalize_reverse_complement :
  forall (log1p : Q -> Q) (series : list (option Q)) (log_scale : bool),
    Forall2 (fun reversed plain => reversed == 100 - plain)
            (normalize_score log1p series true log_scale)
            (normalize_score log1p series false log_scale).
Proof.
  intros log1p series log_scale. unfold normalize_score.
  set (s := prepared log1p log_scale series).
  destruct (series_min s) as [mn|]; [|constructor].
  destruct (series_max s) as [mx|]; [|constructor].
  destruct (Qeq_bool mx mn).
  - apply Forall2_repeat_same. reflexivity.
  - apply Forall2_map_same. intros x _. unfold scale_cell. reflexivity.
Qed.

Lemma scale_cell_monotone (mn mx x y : Q) :
  mn < mx -> x <= y ->
  scale_cell false mn mx x <= scale_cell false mn mx y.
Proof.
  intros Hd Hxy. unfold scale_cell, Qdiv.
  assert (Hinv : 0 < / (mx - mn)) by (apply Qinv_lt_0_compat; lra).
  assert (H : (x - mn) * / (mx - mn) <= (y - mn) * / (mx - mn)).
  { apply Qmult_le_compat_r; lra. }
  lra.
Qed.

Lemma scale_cell_strict (mn mx x y : Q) :
  mn < mx -> x < y ->
  scale_cell false mn mx x < scale_cell false mn mx y.
Proof.
  intros Hd Hxy. unfold scale_cell, Qdiv.
  assert (Hinv : 0 < / (mx - mn)) by (apply Qinv_lt_0_compat; lra).
  assert (H : (x - mn) * / (mx - mn) < (y - mn) * / (mx - mn)).
  { apply Qmult_lt_compat_r; lra. }
  lra.
Qed.

Lemma normalize_score_order :
  forall (log1p : Q -> Q) (series : list (option Q)) (log_scale : bool)
         (i j : nat) (x y a b : Q),
    nth_error (prepared log1p log_scale series) i = Some x ->
    nth_error (prepared log1p log_scale series) j = Some y ->
    nth_error (normalize_score log1p series false log_scale) i = Some a ->
    nth_error (normalize_score log1p series false log_scale) j = Some b ->
    (x <= y -> a <= b) /\ (x < y -> a < b).
Proof.
  intros log1p series log_scale i j x y a b Hx Hy.
  unfold normalize_score.
  set (s := prepared log1p log_scale series) in *.
  destruct (series_min s) as [mn|] eqn:Hmin.
  2:{ destruct i; discriminate. }
  destruct (series_max s) as [mx|] eqn:Hmax.
  2:{ destruct i; discriminate. }
  destruct (series_min_least _ _ Hmin) as [Hmn_in Hmn].
  destruct (series_max_greatest _ _ Hmax) as [Hmx_in Hmx].
  assert (Hxin : In x s) by (eapply nth_error_In; eauto).
  assert (Hyin : In y s) by (eapply nth_error_In; eauto).
  destruct (Qeq_bool mx mn) eqn:He.
  - apply Qeq_bool_iff in He. intros Ha Hb.
    apply nth_error_In, repeat_spec in Ha.
    apply nth_error_In, repeat_spec in Hb. subst a b.
    split; [intros _; apply Qle_refl|].
    intros Hlt. exfalso.
    pose proof (Hmn x Hxin). pose proof (Hmx y Hyin). lra.
  - assert (Hlt : mn < mx).
    { destruct (Qlt_le_dec mn mx) as [H|H]; [exact H|].
      pose proof (Hmn mx Hmx_in).
      assert (Heq : mx == mn) by lra.
      apply Qeq_bool_iff in Heq. congruence. }
    rewrite (map_nth_error _ _ _ Hx), (map_nth_error _ _ _ Hy).
    intros [= <-] [= <-]. split.
    + now apply scale_cell_monotone.
    + now apply scale_cell_strict.
Qed.

(** X4: on a column that [np.log1p] maps to numbers, the plain score keeps
    the order of the prepared cells: a cell that is not above another does
    not score above it, and a cell strictly below another scores strictly
    below it. *)
Theorem normalize_score_monotone :
  forall (log1p : Q -> Q) (series : list (option Q)) (log_scale : bool)
         (i j : nat) (x y a b : Q),
    log_defined log_scale series ->
    nth_error (prepared log1p log_scale series) i = Some x ->
    nth_error (prepared log1p log_scale series) j = Some y ->
    nth_error (normalize_score log1p series false log_scale) i = Some a ->
    nth_error (normalize_score log1p series false log_scale) j = Some b ->
    (x <= y -> a <= b) /\ (x < y -> a < b).
Proof.
  intros log1p series log_scale i j x y a b _.
  apply normalize_score_order.
Qed.

(** X4 on the log-scaled column 10, missing, 30. *)
Lemma normalize_score_monotone_witness :
  exists a b,
    nth_error (normalize_score (fun x => x) [Some 10; None; Some 30] false true)
              0 = Some a /\
    nth_error (normalize_score (fun x => x) [Some 10; None; Some 30] false true)
              2 = Some b /\
    (10 <= 30 -> a <= b) /\ (10 < 30 -> a < b).
Proof.
  do 2 eexists. split; [vm_compute; reflexivity|].
  split; [vm_compute; reflexivity|].
  eapply (normalize_score_monotone (fun x => x)
            [Some 10; None; Some 30] true 0 2 10 30);
    [ intros _; repeat constructor | vm_compute; reflexivity .. ].
Defined.
Section Rescaling.
Variables k c : Q.
Hypothesis k_positive : 0 < k.

Let rescale (x : Q) : Q := k * x + c.

Lemma rescale_le_bool (x y : Q) :
  Qle_bool (rescale x) (rescale y) = Qle_bool x y.
Proof.
  unfold rescale.
  destruct (Qle_bool x y) eqn:E.
  - apply Qle_bool_iff in E. apply Qle_bool_iff. nra.
  - apply Qle_bool_false in E.
    destruct (Qle_bool (k * x + c) (k * y + c)) eqn:E'; [|reflexivity].
    apply Qle_bool_iff in E'. nra.
Qed.

Lemma rescale_eq_bool (x y : Q) :
  Qeq_bool (rescale x) (rescale y) = Qeq_bool x y.
Proof.
  unfold rescale.
  destruct (Qeq_bool x y) eqn:E.
  - apply Qeq_bool_iff in E. apply Qeq_bool_iff. now rewrite E.
  - destruct (Qeq_bool (k * x + c) (k * y + c)) eqn:E'; [|reflexivity].
    apply Qeq_bool_iff in E'.
    assert (Hxy : x == y).
    { destruct (Q_dec x y) as [[H|H]|H]; [exfalso | exfalso | exact H];
        apply (Qmult_lt_l _ _ k k_positive) in H; lra. }
    apply Qeq_bool_iff in Hxy. congruence.
Qed.

Lemma series_min_rescale (l : list Q) :
  series_min (map rescale l) = option_map rescale (series_min l).
Proof.
  induction l as [|x t IH]; simpl; [reflexivity|].
  rewrite IH. destruct (series_min t) as [m|]; simpl; [|reflexivity].
  rewrite rescale_le_bool. now destruct (Qle_bool x m).
Qed.

Lemma series_max_rescale (l : list Q) :
  series_max (map rescale l) = option_map rescale (series_max l).
Proof.
  induction l as [|x t IH]; simpl; [reflexivity|].
  rewrite IH. destruct (series_max t) as [m|]; simpl; [|reflexivity].
  rewrite rescale_le_bool. now destruct (Qle_bool m x).
Qed.

Lemma scale_cell_rescale (reverse : bool) (mn mx x : Q) :
  ~ mx == mn ->
  scale_cell reverse (rescale mn) (rescale mx) (rescale x)
  == scale_cell reverse mn mx x.
Proof.
  intros Hd. unfold scale_cell, rescale.
  assert (Hz : (k * x + c - (k * mn + c)) / (k * mx + c - (k * mn + c))
               == (x - mn) / (mx - mn)).
  { field. split; [intros H; apply Hd; lra|].
    intros H. apply Hd.
    destruct (Q_dec mx mn) as [[H'|H']|H']; [exfalso | exfalso | exact H'];
      apply (Qmult_lt_l _ _ k k_positive) in H'; lra. }
  destruct reverse; rewrite Hz; reflexivity.
Qed.

Lemma normalize_rescaled (log1p : Q -> Q) (xs : list Q) (reverse : bool) :
  Forall2 Qeq
    (normalize_score log1p (map (fun x => Some (rescale x)) xs) reverse false)
    (normalize_score log1p (map Some xs) reverse false).
Proof.
  unfold normalize_score, prepared. rewrite !map_map. simpl.
  change (map (fun x => rescale x) xs) with (map rescale xs).
  rewrite (map_id xs).
  rewrite series_min_rescale, series_max_rescale.
  destruct (series_min xs) as [mn|]; simpl; [|constructor].
  destruct (series_max xs) as [mx|]; simpl; [|constructor].
  rewrite rescale_eq_bool, length_map.
  destruct (Qeq_bool mx mn) eqn:E.
  - apply Forall2_repeat_same. reflexivity.
  - rewrite map_map. apply Forall2_map_same. intros x _.
    apply scale_cell_rescale. intros H. apply Qeq_bool_iff in H. congruence.
Qed.

End Rescaling.

(** X5: a column without missing cells and without [log_scale] scores the
    same after a change of unit or origin: replacing every cell x by
    k*x + c with k > 0 leaves every score as it was. *)
Theorem normalize_score_unit_free :
  forall (log1p : Q -> Q) (xs : list Q) (reverse : bool) (k c : Q),
    0 < k ->
    Forall2 Qeq
      (normalize_score log1p (map (fun x => Some (k * x + c)) xs) reverse false)
      (normalize_score log1p (map Some xs) reverse false).
Proof.
  intros log1p xs reverse k c Hk. now apply normalize_rescaled.
Qed.

(** X5 on distances given in metres instead of kilometres. *)
Lemma normalize_score_unit_free_witness :
  Forall2 Qeq
    (normalize_score (fun x => x)
       (map (fun x => Some (1000 * x + 0)) [3; 12; 40]) false false)
    (normalize_score (fun x => x) (map Some [3; 12; 40]) false false).
Proof.
  apply (normalize_score_unit_free (fun x => x) [3; 12; 40] false 1000 0).
  reflexivity.
Defined.

End NormalizerFacts.

(* ================================================================== *)
(** * Facts about the Viability Scorer *)
(* ================================================================== *)

Module ScorerFacts.
Import Normalizer NormalizerFacts Scorer.

(** ** Columns *)

Lemma zip_with_length {A B C : Type} (f : A -> B -> C) l1 l2 :
  List.length (zip_with f l1 l2) = Nat.min (List.length l1) (List.length l2).
Proof.
  revert l2. induction l1 as [|a t IH]; intros [|b t2]; simpl; auto.
Qed.

Lemma zip_with_Forall {A B C : Type} (f : A -> B -> C)
      (P : A -> Prop) (R : B -> Prop) (S : C -> Prop) l1 l2 :
  (forall a b, P a -> R b -> S (f a b)) ->
  Forall P l1 -> Forall R l2 -> Forall S (zip_with f l1 l2).
Proof.
  intros Hf H1. revert l2. induction H1 as [|a t Ha Ht IH]; intros l2 H2.
  - constructor.
  - destruct H2 as [|b t2 Hb Ht2]; simpl; constructor; auto.
Qed.

Definition in_range (y : Q) : Prop := 0 <= y <= 100.

Lemma positive_flag_cases (x : option Q) :
  positive_flag x = 0 \/ positive_flag x = 1.
Proof.
  destruct x as [v|]; simpl; [destruct (Qle_bool v 0)|]; auto.
Qed.

Section WithLog.
Variable log1p : Q -> Q.

Lemma weighted_pair_range (c1 c2 : list Q) (w1 w2 : Q) :
  0 <= w1 -> 0 <= w2 -> w1 + w2 == 1 ->
  Forall in_range c1 -> Forall in_range c2 ->
  Forall in_range (col_add (col_scale c1 w1) (col_scale c2 w2)).
Proof.
  intros Hw1 Hw2 Hs H1 H2. unfold col_add, col_scale.
  apply zip_with_Forall with (P := fun y => exists x, in_range x /\ y = x * w1)
                             (R := fun y => exists x, in_range x /\ y = x * w2).
  - intros a b [x [[Hx0 Hx1] ->]] [y [[Hy0 Hy1] ->]]. unfold in_range. nra.
  - apply Forall_forall. intros y Hy. apply in_map_iff in Hy.
    destruct Hy as [x [<- Hx]]. exists x. split; [|reflexivity].
    rewrite Forall_forall in H1. now apply H1.
  - apply Forall_forall. intros y Hy. apply in_map_iff in Hy.
    destruct Hy as [x [<- Hx]]. exists x. split; [|reflexivity].
    rewrite Forall_forall in H2. now apply H2.
Qed.

Lemma market_size_range t : Forall in_range (market_size_column log1p t).
Proof.
  apply weighted_pair_range; try lra; apply normalize_score_range.
Qed.

Lemma revenue_potential_range t :
  Forall in_range (revenue_potential_column log1p t).
Proof.
  apply weighted_pair_range; try lra; apply normalize_score_range.
Qed.

Lemma cost_efficiency_range t :
  Forall in_range (cost_efficiency_column log1p t).
Proof.
  apply weighted_pair_range; try lra; apply normalize_score_range.
Qed.

Lemma accessibility_range t : Forall in_range (accessibility_column log1p t).
Proof.
  unfold accessibility_column, col_add, col_scale.
  set (a := normalize_score log1p (map schools_count t) false false).
  set (b := normalize_score log1p (map health_facilities_count t) false false).
  set (c := normalize_score log1p (map commercial_facilities_count t) false false).
  assert (Ha : Forall in_range a) by apply normalize_score_range.
  assert (Hb : Forall in_range b) by apply normalize_score_range.
  assert (Hc : Forall in_range c) by apply normalize_score_range.
  apply zip_with_Forall with (P := fun y => 0 <= y <= 80)
                             (R := fun y => 0 <= y <= 20).
  - intros x y Hx Hy. unfold in_range. lra.
  - apply zip_with_Forall with (P := fun y => 0 <= y <= 40)
                               (R := fun y => 0 <= y <= 40).
    + intros x y Hx Hy. lra.
    + apply Forall_forall. intros y Hy. apply in_map_iff in Hy.
      destruct Hy as [x [<- Hx]]. rewrite Forall_forall in Ha.
      specialize (Ha x Hx). unfold in_range in Ha. lra.
    + apply Forall_forall. intros y Hy. apply in_map_iff in Hy.
      destruct Hy as [x [<- Hx]]. rewrite Forall_forall in Hb.
      specialize (Hb x Hx). unfold in_range in Hb. lra.
  - apply Forall_forall. intros y Hy. apply in_map_iff in Hy.
    destruct Hy as [x [<- Hx]]. rewrite Forall_forall in Hc.
    specialize (Hc x Hx). unfold in_range in Hc. lra.
Qed.

Lemma strategic_value_range t : Forall in_range (strategic_value_column t).
Proof.
  unfold strategic_value_column, col_add, col_scale.
  apply zip_with_Forall with (P := fun y => y == 0 \/ y == 60)
                             (R := fun y => y == 0 \/ y == 40).
  - intros x y [Hx | Hx] [Hy | Hy]; unfold in_range; lra.
  - apply Forall_forall. intros y Hy. rewrite !map_map in Hy.
    apply in_map_iff in Hy. destruct Hy as [s [<- _]].
    destruct (positive_flag_cases (health_facilities_count s)) as [-> | ->];
      [left | right]; ring.
  - apply Forall_forall. intros y Hy. rewrite !map_map in Hy.
    apply in_map_iff in Hy. destruct Hy as [s [<- _]].
    destruct (positive_flag_cases (schools_count s)) as [-> | ->];
      [left | right]; ring.
Qed.

End WithLog.

(** ** Rows of the scored table *)

(** What the source sets on a row: sub-scores in range and the total as the
    weighted sum of that row's sub-scores. *)
Definition well_scored (r : scored) : Prop :=
  (forall k, in_range (sub_score r k)) /\
  total_score r = weighted_total (sub_score r).

Lemma weighted_total_unfold (sub : score_column -> Q) :
  weighted_total sub
  = 0 + sub market_size_score * 0.25
      + sub revenue_potential_score * 0.25
      + sub cost_efficiency_score * 0.20
      + sub accessibility_score * 0.15
      + sub strategic_value_score * 0.15.
Proof. reflexivity. Qed.

Lemma weights_sum_to_one :
  fold_right Qplus 0 (map snd weights) == 1.
Proof. reflexivity. Qed.

(** A convex combination stays between any bounds on its terms. *)
Lemma weighted_total_between (sub : score_column -> Q) (lo hi : Q) :
  (forall k, lo <= sub k <= hi) ->
  lo <= weighted_total sub <= hi.
Proof.
  intros H. rewrite weighted_total_unfold.
  pose proof (H market_size_score). pose proof (H revenue_potential_score).
  pose proof (H cost_efficiency_score). pose proof (H accessibility_score).
  pose proof (H strategic_value_score). lra.
Qed.

Lemma mk_scored_well (i : nat) (s : settlement) (m r c a v : Q) :
  in_range m -> in_range r -> in_range c -> in_range a -> in_range v ->
  well_scored (mk_scored i s m r c a v).
Proof.
  intros Hm Hr Hc Ha Hv. split; [|reflexivity].
  intros k; destruct k; simpl; assumption.
Qed.

Section WithLog.
Variable log1p : Q -> Q.

Lemma score_table_well (t : list settlement) :
  Forall well_scored (score_table log1p t).
Proof.
  unfold score_table, apply_column.
  eapply zip_with_Forall with
    (R := in_range)
    (P := fun f => forall v, in_range v -> well_scored (f v));
    [ intros f v Hf Hv; now apply Hf | | apply strategic_value_range ].
  eapply zip_with_Forall with
    (R := in_range)
    (P := fun f => forall a v, in_range a -> in_range v -> well_scored (f a v));
    [ intros f a Hf Ha v Hv; now apply Hf | | apply accessibility_range ].
  eapply zip_with_Forall with
    (R := in_range)
    (P := fun f => forall c a v, in_range c -> in_range a -> in_range v ->
                                 well_scored (f c a v));
    [ intros f c Hf Hc a v Ha Hv; now apply Hf | | apply cost_efficiency_range ].
  eapply zip_with_Forall with
    (R := in_range)
    (P := fun f => forall r c a v, in_range r -> in_range c -> in_range a ->
                                   in_range v -> well_scored (f r c a v));
    [ intros f r Hf Hr c a v Hc Ha Hv; now apply Hf
    | | apply revenue_potential_range ].
  eapply zip_with_Forall with
    (R := in_range)
    (P := fun f => forall m r c a v, in_range m -> in_range r -> in_range c ->
                                     in_range a -> in_range v ->
                                     well_scored (f m r c a v));
    [ intros f m Hf Hm r c a v Hr Hc Ha Hv; now apply Hf
    | | apply market_size_range ].
  eapply zip_with_Forall with (P := fun _ => True) (R := fun _ => True).
  - intros i s _ _ m r c a v. apply mk_scored_well.
  - apply Forall_forall. auto.
  - apply Forall_forall. auto.
Qed.

Lemma column_length_pair (c1 c2 : list Q) (w1 w2 : Q) (n : nat) :
  List.length c1 = n -> List.length c2 = n ->
  List.length (col_add (col_scale c1 w1) (col_scale c2 w2)) = n.
Proof.
  intros H1 H2. unfold col_add, col_scale.
  rewrite zip_with_length, !length_map, H1, H2. apply Nat.min_id.
Qed.

Lemma normalized_length (f : settlement -> option Q) (t : list settlement)
      (reverse log_scale : bool) :
  List.length (normalize_score log1p (map f t) reverse log_scale)
  = List.length t.
Proof. rewrite normalize_score_length. apply length_map. Qed.

Lemma score_table_length (t : list settlement) :
  List.length (score_table log1p t) = List.length t.
Proof.
  assert (Hm : List.length (market_size_column log1p t) = List.length t)
    by (apply column_length_pair; apply normalized_length).
  assert (Hr : List.length (revenue_potential_column log1p t) = List.length t)
    by (apply column_length_pair; apply normalized_length).
  assert (Hc : List.length (cost_efficiency_column log1p t) = List.length t)
    by (apply column_length_pair; apply normalized_length).
  assert (Ha : List.length (accessibility_column log1p t) = List.length t).
  { unfold accessibility_column, col_add at 1.
    rewrite zip_with_length, column_length_pair with (n := List.length t)
      by apply normalized_length.
    unfold col_scale. rewrite length_map, normalized_length. apply Nat.min_id. }
  assert (Hv : List.length (strategic_value_column t) = List.length t)
    by (apply column_length_pair; now rewrite !length_map).
  unfold score_table, apply_column.
  rewrite !zip_with_length, Hm, Hr, Hc, Ha, Hv, length_seq, !Nat.min_id.
  reflexivity.
Qed.

End WithLog.

(** ** Ranking *)

(** Ranks from [k] on: the rows keep their order and the [i]-th row gets
    rank [k + i]. *)
Lemma rank_rows_nth (k : nat) (l : list scored) (i : nat) (r : ranked) :
  nth_error (zip_with (fun x n => mkRanked x n (tier_of (total_score x)))
                      l (seq k (List.length l))) i = Some r ->
  nth_error l i = Some (row r) /\ rank r = (k + i)%nat /\
  viability_tier r = tier_of (total_score (row r)).
Proof.
  revert k i. induction l as [|x t IH]; intros k i; simpl.
  - destruct i; discriminate.
  - destruct i as [|i]; simpl.
    + intros [= <-]. simpl. repeat split. lia.
    + intros H. apply IH in H. destruct H as [H1 [H2 H3]].
      repeat split; [exact H1 | lia | exact H3].
Qed.

Lemma rank_rows_map_row (k : nat) (l : list scored) :
  map row (zip_with (fun x n => mkRanked x n (tier_of (total_score x)))
                    l (seq k (List.length l))) = l.
Proof.
  revert k. induction l as [|x t IH]; intros k; simpl; [reflexivity|].
  now rewrite IH.
Qed.


Lemma rank_and_tier_In (l : list scored) (r : ranked) :
  In r (rank_and_tier l) ->
  exists i, nth_error l i = Some (row r) /\ rank r = S i /\
            viability_tier r = tier_of (total_score (row r)).
Proof.
  intros H. apply In_nth_error in H. destruct H as [i H].
  apply rank_rows_nth in H. exists i. exact H.
Qed.

Lemma rank_and_tier_covers (l : list scored) (x : scored) :
  In x l -> exists r, In r (rank_and_tier l) /\ row r = x.
Proof.
  intros H. rewrite <- (rank_rows_map_row 1 l) in H.
  apply in_map_iff in H. destruct H as [r [Hr Hin]]. now exists r.
Qed.

Definition score_desc (a b : scored) : Prop := total_score b <= total_score a.


(** ** The two insertion sorts meet the interface *)

Lemma insert_desc_perm (b : bool) (x : scored) (l : list scored) :
  Permutation (x :: l) (insert_desc b x l).
Proof.
  induction l as [|y t IH]; simpl; [apply Permutation_refl|].
  destruct (goes_behind b x y).
  - eapply perm_trans; [apply perm_swap|]. now apply perm_skip.
  - apply Permutation_refl.
Qed.

Lemma insertion_sort_desc_perm (b : bool) (l : list scored) :
  Permutation l (insertion_sort_desc b l).
Proof.
  induction l as [|x t IH]; simpl; [constructor|].
  eapply perm_trans; [apply perm_skip; exact IH | apply insert_desc_perm].
Qed.

Lemma goes_behind_true (b : bool) (x y : scored) :
  goes_behind b x y = true -> score_desc y x.
Proof.
  unfold goes_behind, score_desc. destruct b; intros Hc.
  - now apply Qle_bool_iff.
  - apply negb_true_iff in Hc. apply Qle_bool_false in Hc.
    now apply Qlt_le_weak.
Qed.

Lemma goes_behind_false (b : bool) (x y : scored) :
  goes_behind b x y = false -> score_desc x y.
Proof.
  unfold goes_behind, score_desc. destruct b; intros Hc.
  - apply Qle_bool_false in Hc. now apply Qlt_le_weak.
  - apply negb_false_iff in Hc. now apply Qle_bool_iff.
Qed.

Lemma insert_desc_sorted (b : bool) (x : scored) (l : list scored) :
  Sorted score_desc l -> Sorted score_desc (insert_desc b x l).
Proof.
  induction 1 as [|y t Ht IH Hy]; simpl.
  - repeat constructor.
  - destruct (goes_behind b x y) eqn:Hc.
    + apply goes_behind_true in Hc.
      constructor; [exact IH|].
      destruct t as [|z t']; simpl.
      * now constructor.
      * destruct (goes_behind b x z); constructor;
          [now inversion Hy | exact Hc].
    + apply goes_behind_false in Hc.
      constructor; [now constructor | now constructor].
Qed.

Lemma insertion_sort_desc_sorted (b : bool) (l : list scored) :
  StronglySorted score_desc (insertion_sort_desc b l).
Proof.
  apply Sorted_StronglySorted.
  - intros x y z Hxy Hyz. unfold score_desc in *. eapply Qle_trans; eauto.
  - induction l as [|x t IH]; simpl; [constructor|].
    now apply insert_desc_sorted.
Qed.

(** A sort that meets the interface: [kind='stable'] behaviour. *)
Definition stable_sorter : SortValues :=
  {| sort_values := insertion_sort_desc false;
     sort_values_perm := insertion_sort_desc_perm false;
     sort_values_desc := insertion_sort_desc_sorted false |}.

(** ** The output table *)

Section Output.
Variable log1p : Q -> Q.
Context {sorter : SortValues}.

(** The rows of the output are the rows of the scored table, reordered. *)
Lemma output_rows_perm (t : list settlement) :
  Permutation (score_table log1p t)
              (map row (calculate_viability_scores log1p t)).
Proof.
  unfold calculate_viability_scores, rank_and_tier.
  rewrite rank_rows_map_row. apply sort_values_perm.
Qed.

Lemma output_row_scored (t : list settlement) (r : ranked) :
  In r (calculate_viability_scores log1p t) ->
  In (row r) (score_table log1p t).
Proof.
  intros H. eapply Permutation_in.
  - apply Permutation_sym, output_rows_perm.
  - now apply in_map.
Qed.




End Output.

(** C5: on every output row [total_score] is the weighted sum of that
    row's five sub-scores with weights 0.25, 0.25, 0.20, 0.15 and 0.15,
    which add up to 1, and it lies between any two bounds that hold for the
    five sub-scores, so between their least and their greatest; when the
    log-scaled metrics are above -1 on every row, each sub-score is in
    [0,100] and so is [total_score]. *)
Theorem total_score_convex :
  forall (log1p : Q -> Q) (sorter : SortValues) (t : list settlement),
    fold_right Qplus 0 (map snd weights) == 1 /\
    Forall (fun r =>
              let sub := sub_score (row r) in
              let total := total_score (row r) in
              total == 0.25 * sub market_size_score
                       + 0.25 * sub revenue_potential_score
                       + 0.20 * sub cost_efficiency_score
                       + 0.15 * sub accessibility_score
                       + 0.15 * sub strategic_value_score /\
              (forall lo hi, (forall k, lo <= sub k <= hi) ->
                             lo <= total <= hi))
           (calculate_viability_scores log1p t) /\
    (log_metrics_defined t ->
     Forall (fun r =>
               (forall k, 0 <= sub_score (row r) k <= 100) /\
               0 <= total_score (row r) <= 100)
            (calculate_viability_scores log1p t)).
Proof.
  intros log1p sorter t. split; [apply weights_sum_to_one|].
  assert (Hrow : forall r, In r (calculate_viability_scores log1p t) ->
                           well_scored (row r)).
  { intros r Hr. apply output_row_scored in Hr.
    pose proof (score_table_well log1p t) as Hw.
    rewrite Forall_forall in Hw. now apply Hw. }
  split.
  - apply Forall_forall. intros r Hr. destruct (Hrow r Hr) as [_ Htot].
    cbv zeta. rewrite Htot. split.
    + rewrite weighted_total_unfold. ring.
    + intros lo hi Hb. now apply weighted_total_between.
  - intros _. apply Forall_forall. intros r Hr.
    destruct (Hrow r Hr) as [Hsub Htot]. rewrite Htot.
    split; [exact Hsub|]. apply (weighted_total_between _ 0 100). exact Hsub.
Qed.


(** ** Small tables *)

Section SmallColumns.
Variable log1p : Q -> Q.

Lemma normalize_constant_pair (x : option Q) (reverse log_scale : bool) :
  normalize_score log1p [x; x] reverse log_scale = [50; 50].
Proof.
  rewrite normalize_score_degenerate; [reflexivity|].
  intros a b Ha Hb. simpl in Ha, Hb.
  destruct Ha as [<-|[<-|[]]]; destruct Hb as [<-|[<-|[]]]; reflexivity.
Qed.

(** A two-cell column whose second cell is the smaller one. *)
Lemma normalize_pair_second_least (a b : Q) (log_scale : bool) :
  let f v := if log_scale then log1p v else v in
  f b < f a ->
  normalize_score log1p [Some a; Some b] false log_scale
  = [scale_cell false (f b) (f a) (f a); scale_cell false (f b) (f a) (f b)].
Proof.
  intros f Hlt. unfold normalize_score, prepared. simpl. fold (f a) (f b).
  assert (H1 : Qle_bool (f a) (f b) = false).
  { destruct (Qle_bool (f a) (f b)) eqn:E; [|reflexivity].
    apply Qle_bool_iff in E. lra. }
  assert (H2 : Qle_bool (f b) (f a) = true) by (apply Qle_bool_iff; lra).
  assert (H3 : Qeq_bool (f a) (f b) = false).
  { destruct (Qeq_bool (f a) (f b)) eqn:E; [|reflexivity].
    apply Qeq_bool_iff in E. lra. }
  now rewrite H1, H2, H3.
Qed.

End SmallColumns.

Lemma tier_of_nonpositive (x : Q) : x <= 0 -> tier_of x = None.
Proof.
  intros Hx. unfold tier_of, cut, searchsorted_left. simpl.
  assert (H0 : Qle_bool x 0 = true) by (apply Qle_bool_iff; exact Hx).
  assert (H40 : Qle_bool x 40 = true) by (apply Qle_bool_iff; lra).
  assert (H70 : Qle_bool x 70 = true) by (apply Qle_bool_iff; lra).
  assert (H100 : Qle_bool x 100 = true) by (apply Qle_bool_iff; lra).
  now rewrite H0, H40, H70, H100.
Qed.

(** X1: the bins of [pd.cut]: (0,40], (40,70] and (70,100]; nothing else
    gets a tier. *)
Lemma tier_of_bins (x : Q) :
  (0 < x <= 40 -> tier_of x = Some Low) /\
  (40 < x <= 70 -> tier_of x = Some Medium) /\
  (70 < x <= 100 -> tier_of x = Some High) /\
  (x <= 0 \/ 100 < x -> tier_of x = None).
Proof.
  unfold tier_of, cut, searchsorted_left. simpl.
  destruct (Qle_bool x 0) eqn:E0; destruct (Qle_bool x 40) eqn:E40;
    destruct (Qle_bool x 70) eqn:E70; destruct (Qle_bool x 100) eqn:E100;
    repeat match goal with
           | H : Qle_bool _ _ = true |- _ => apply Qle_bool_iff in H
           | H : Qle_bool _ _ = false |- _ => apply Qle_bool_false in H
           end;
    simpl; repeat apply conj; intros; try reflexivity; exfalso; lra.
Qed.



(** On the table of two such sites the same sort leaves file order: a
    column of at most 17 cells goes to the insertion sort, which moves no
    equal keys. *)
Lemma pandas_keeps_twins_in_file_order :
  forall log1p : Q -> Q,
    ties_keep_file_order (viability_scores_as_run log1p Examples.twins).
Proof.
  intros log1p.
  assert (Hout : exists a b,
             viability_scores_as_run log1p Examples.twins = [a; b] /\
             label (row a) = 0%nat /\ label (row b) = 1%nat /\
             rank a = 1%nat /\ rank b = 2%nat).
  { unfold viability_scores_as_run, score_table, market_size_column,
      revenue_potential_column, cost_efficiency_column, accessibility_column,
      strategic_value_column, Examples.twins.
    simpl map. rewrite !normalize_constant_pair.
    do 2 eexists. split; [vm_compute; reflexivity|].
    repeat split. }
  destruct Hout as [a [b [Hout [Hla [Hlb [Hra Hrb]]]]]].
  rewrite Hout. intros x y Hx Hy _ Hlt.
  destruct Hx as [<-|[<-|[]]]; destruct Hy as [<-|[<-|[]]]; lia.
Qed.

(** With a stable sort the same two rows are ranked in file order, so the
    property above is one a sort can meet. *)
Lemma stable_sort_keeps_twins_in_file_order :
  forall log1p : Q -> Q,
    ties_keep_file_order
      (@calculate_viability_scores log1p stable_sorter Examples.twins).
Proof.
  intros log1p.
  assert (Hout : exists a b,
             @calculate_viability_scores log1p stable_sorter Examples.twins
             = [a; b] /\
             label (row a) = 0%nat /\ label (row b) = 1%nat /\
             rank a = 1%nat /\ rank b = 2%nat).
  { unfold calculate_viability_scores, score_table, market_size_column,
      revenue_potential_column, cost_efficiency_column, accessibility_column,
      strategic_value_column, Examples.twins.
    simpl map. rewrite !normalize_constant_pair.
    do 2 eexists. split; [vm_compute; reflexivity|].
    repeat split. }
  destruct Hout as [a [b [Hout [Hla [Hlb [Hra Hrb]]]]]].
  rewrite Hout. intros x y Hx Hy _ Hlt.
  destruct Hx as [<-|[<-|[]]]; destruct Hy as [<-|[<-|[]]]; lia.
Qed.

(** C3, a table on which the code leaves a row without a tier: the site
    that is lowest in every metric gets [total_score] 0, which lies in no
    bin of [pd.cut], so its [viability_tier] is missing rather than Low. *)
Theorem lowest_site_gets_no_tier :
  forall (log1p : Q -> Q) (sorter : SortValues),
    (forall x y, x < y -> log1p x < log1p y) ->
    exists r,
      In r (calculate_viability_scores log1p Examples.strong_and_weak) /\
      site (row r) = Examples.weak_site /\
      total_score (row r) == 0 /\
      viability_tier r = None.
Proof.
  intros log1p sorter Hmono.
  assert (Hrow : exists x,
             In x (score_table log1p Examples.strong_and_weak) /\
             site x = Examples.weak_site /\ total_score x == 0).
  { unfold score_table, market_size_column, revenue_potential_column,
      cost_efficiency_column, accessibility_column, strategic_value_column,
      Examples.strong_and_weak, Examples.strong_site, Examples.weak_site.
    simpl map.
    rewrite !(normalize_pair_second_least log1p _ _ true)
      by (apply Hmono; reflexivity).
    rewrite !(normalize_pair_second_least log1p _ _ false) by reflexivity.
    eexists. split; [right; left; reflexivity|].
    split; [reflexivity|].
    cbn [total_score mk_scored]. rewrite weighted_total_unfold.
    rewrite !scale_cell_at_min;
      try reflexivity; try (apply Hmono; reflexivity). }
  destruct Hrow as [x [Hin [Hsite Htot]]].
  assert (Hsorted : In x (sort_values (score_table log1p Examples.strong_and_weak)))
    by (eapply Permutation_in; [apply sort_values_perm | exact Hin]).
  apply rank_and_tier_covers in Hsorted. destruct Hsorted as [r [Hr Hrow]].
  exists r. split; [exact Hr|].
  apply rank_and_tier_In in Hr. destruct Hr as [i [_ [_ Htier]]].
  rewrite Htier, Hrow. repeat split; try assumption.
  apply tier_of_nonpositive. rewrite Htot. apply Qle_refl.
Qed.

(** C3 on the table under one increasing [log1p] and the stable sort. *)
Lemma lowest_site_gets_no_tier_witness :
  exists r,
    In r (@calculate_viability_scores (fun x => x) stable_sorter
                                      Examples.strong_and_weak) /\
    site (row r) = Examples.weak_site /\
    total_score (row r) == 0 /\
    viability_tier r = None.
Proof.
  apply (lowest_site_gets_no_tier (fun x => x) stable_sorter).
  intros x y H. exact H.
Defined.

(** ** Rows against their features *)

Lemma zip_with_nth_error {A B C : Type} (f : A -> B -> C) l1 l2 (i : nat) :
  nth_error (zip_with f l1 l2) i
  = match nth_error l1 i, nth_error l2 i with
    | Some a, Some b => Some (f a b)
    | _, _ => None
    end.
Proof.
  revert l2 i. induction l1 as [|a t IH]; intros [|b t2] [|i]; simpl;
    try reflexivity.
  - now destruct (nth_error t i).
  - apply IH.
Qed.

Lemma col_scale_nth_error (c : list Q) (k : Q) (i : nat) :
  nth_error (col_scale c k) i = option_map (fun x => x * k) (nth_error c i).
Proof. unfold col_scale. apply nth_error_map. Qed.

Lemma col_add_nth_error (c1 c2 : list Q) (i : nat) (z : Q) :
  nth_error (col_add c1 c2) i = Some z ->
  exists x y, nth_error c1 i = Some x /\ nth_error c2 i = Some y /\ z = x + y.
Proof.
  unfold col_add. rewrite zip_with_nth_error.
  destruct (nth_error c1 i) as [x|]; [|discriminate].
  destruct (nth_error c2 i) as [y|]; [|discriminate].
  intros [= <-]. now exists x, y.
Qed.

Lemma weighted_pair_nth_error (c1 c2 : list Q) (w1 w2 : Q) (i : nat) (z : Q) :
  nth_error (col_add (col_scale c1 w1) (col_scale c2 w2)) i = Some z ->
  exists x y, nth_error c1 i = Some x /\ nth_error c2 i = Some y /\
              z = x * w1 + y * w2.
Proof.
  intros H. apply col_add_nth_error in H.
  destruct H as [x' [y' [Hx [Hy ->]]]].
  rewrite col_scale_nth_error in Hx, Hy.
  destruct (nth_error c1 i) as [x|]; [|discriminate].
  destruct (nth_error c2 i) as [y|]; [|discriminate].
  simpl in Hx, Hy. injection Hx as <-. injection Hy as <-.
  now exists x, y.
Qed.

Section Rows.
Variable log1p : Q -> Q.

(** The [i]-th row of the scored table is built from the [i]-th feature
    and the [i]-th cell of each sub-score column. *)
Lemma score_table_nth (t : list settlement) (i : nat) (x : scored) :
  nth_error (score_table log1p t) i = Some x ->
  exists s m r c a v,
    nth_error t i = Some s /\
    nth_error (market_size_column log1p t) i = Some m /\
    nth_error (revenue_potential_column log1p t) i = Some r /\
    nth_error (cost_efficiency_column log1p t) i = Some c /\
    nth_error (accessibility_column log1p t) i = Some a /\
    nth_error (strategic_value_column t) i = Some v /\
    x = mk_scored i s m r c a v.
Proof.
  unfold score_table, apply_column. rewrite !zip_with_nth_error.
  destruct (nth_error (seq 0 (List.length t)) i) as [k|] eqn:Hk; [|discriminate].
  destruct (nth_error t i) as [s|]; [|discriminate].
  destruct (nth_error (market_size_column log1p t) i) as [m|]; [|discriminate].
  destruct (nth_error (revenue_potential_column log1p t) i) as [r|];
    [|discriminate].
  destruct (nth_error (cost_efficiency_column log1p t) i) as [c|];
    [|discriminate].
  destruct (nth_error (accessibility_column log1p t) i) as [a|];
    [|discriminate].
  destruct (nth_error (strategic_value_column t) i) as [v|]; [|discriminate].
  intros [= <-].
  assert (k = i).
  { assert (Hlt : (i < List.length (seq 0 (List.length t)))%nat)
      by (apply nth_error_Some; congruence).
    rewrite length_seq in Hlt.
    rewrite (nth_error_nth' _ 0%nat) in Hk by now rewrite length_seq.
    rewrite seq_nth in Hk by exact Hlt. now injection Hk as <-. }
  subst k. now exists s, m, r, c, a, v.
Qed.

Lemma score_table_In (t : list settlement) (x : scored) :
  In x (score_table log1p t) ->
  nth_error (score_table log1p t) (label x) = Some x /\
  nth_error t (label x) = Some (site x).
Proof.
  intros H. apply In_nth_error in H. destruct H as [i Hi].
  destruct (score_table_nth t i x Hi)
    as [s [m [r [c [a [v [Hs [_ [_ [_ [_ [_ ->]]]]]]]]]]]].
  simpl. split; [exact Hi | exact Hs].
Qed.

Lemma strategic_cell (t : list settlement) (i : nat) (s : settlement) (v : Q) :
  nth_error t i = Some s ->
  nth_error (strategic_value_column t) i = Some v ->
  v = positive_flag (health_facilities_count s) * 60
      + positive_flag (schools_count s) * 40.
Proof.
  intros Hs Hv. unfold strategic_value_column in Hv.
  apply weighted_pair_nth_error in Hv. destruct Hv as [x [y [Hx [Hy ->]]]].
  rewrite !nth_error_map, Hs in Hx, Hy. simpl in Hx, Hy.
  now injection Hx as <-; injection Hy as <-.
Qed.

Lemma cost_efficiency_cell (t : list settlement) (i : nat) (c : Q) :
  nth_error (cost_efficiency_column log1p t) i = Some c ->
  exists g d,
    nth_error (normalize_score log1p (map solar_ghi t) false false) i = Some g /\
    nth_error (normalize_score log1p (map distance_to_grid_km t) false false) i
    = Some d /\
    c = g * 0.7 + d * 0.3.
Proof. apply weighted_pair_nth_error. Qed.

End Rows.
(** ** Properties of the output table *)

Lemma tier_of_cases (x : Q) :
  (0 < x <= 40 -> tier_of x = Some Low) /\
  (40 < x <= 70 -> tier_of x = Some Medium) /\
  (70 < x <= 100 -> tier_of x = Some High) /\
  (x <= 0 \/ 100 < x -> tier_of x = None).
Proof.
  unfold tier_of, cut, searchsorted_left. simpl.
  destruct (Qle_bool x 0) eqn:E0; destruct (Qle_bool x 40) eqn:E40;
    destruct (Qle_bool x 70) eqn:E70; destruct (Qle_bool x 100) eqn:E100;
    repeat match goal with
           | H : Qle_bool _ _ = true |- _ => apply Qle_bool_iff in H
           | H : Qle_bool _ _ = false |- _ => apply Qle_bool_false in H
           end;
    simpl; repeat apply conj; intros; try reflexivity; exfalso; lra.
Qed.

Section OutputRows.
Variable log1p : Q -> Q.
Context {sorter : SortValues}.

Lemma output_row_tier (t : list settlement) (r : ranked) :
  In r (calculate_viability_scores log1p t) ->
  viability_tier r = tier_of (total_score (row r)) /\
  0 <= total_score (row r) <= 100.
Proof.
  intros Hr. split.
  - apply rank_and_tier_In in Hr. now destruct Hr as [i [_ [_ H]]].
  - apply output_row_scored in Hr.
    pose proof (score_table_well log1p t) as Hw.
    rewrite Forall_forall in Hw. destruct (Hw _ Hr) as [Hsub ->].
    apply (weighted_total_between _ 0 100). exact Hsub.
Qed.

End OutputRows.

(** X6: every output row carries the feature of the file row that its
    label names, and the features of the output are those of the input,
    each once: scoring and sorting drop and duplicate nothing. *)
Theorem features_preserved :
  forall (log1p : Q -> Q) (sorter : SortValues) (t : list settlement),
    let out := calculate_viability_scores log1p t in
    Permutation t (map (fun r => site (row r)) out) /\
    Permutation (seq 0 (List.length t)) (map (fun r => label (row r)) out) /\
    Forall (fun r => nth_error t (label (row r)) = Some (site (row r))) out.
Proof.
  intros log1p sorter t out.
  assert (Hsite : map site (score_table log1p t) = t).
  { apply nth_error_ext. intros i. rewrite nth_error_map.
    destruct (nth_error (score_table log1p t) i) as [x|] eqn:Hx.
    - destruct (score_table_nth log1p t i x Hx)
        as [s [m [r [c [a [v [Hs [_ [_ [_ [_ [_ ->]]]]]]]]]]]].
      simpl. now rewrite Hs.
    - simpl. symmetry. apply nth_error_None.
      apply nth_error_None in Hx. now rewrite score_table_length in Hx. }
  assert (Hlabel : map label (score_table log1p t) = seq 0 (List.length t)).
  { apply nth_error_ext. intros i. rewrite nth_error_map.
    destruct (nth_error (score_table log1p t) i) as [x|] eqn:Hx.
    - destruct (score_table_nth log1p t i x Hx)
        as [s [m [r [c [a [v [Hs [_ [_ [_ [_ [_ ->]]]]]]]]]]]].
      simpl. symmetry.
      assert (Hlt : (i < List.length t)%nat)
        by (apply nth_error_Some; congruence).
      rewrite (nth_error_nth' _ 0%nat) by now rewrite length_seq.
      now rewrite seq_nth.
    - simpl. symmetry. apply nth_error_None. rewrite length_seq.
      apply nth_error_None in Hx. now rewrite score_table_length in Hx. }
  pose proof (output_rows_perm log1p t) as Hperm. fold out in Hperm.
  repeat apply conj.
  - rewrite <- Hsite at 1. rewrite <- (map_map row site).
    now apply Permutation_map.
  - rewrite <- Hlabel. rewrite <- (map_map row label).
    now apply Permutation_map.
  - apply Forall_forall. intros r Hr.
    apply (output_row_scored log1p t) in Hr.
    now apply score_table_In in Hr.
Qed.

(** X7: on every output row [strategic_value_score] is 60 when the row's
    own feature has a health facility, plus 40 when it has a school; a
    missing or non-positive count adds nothing. *)
Theorem strategic_value_of_row :
  forall (log1p : Q -> Q) (sorter : SortValues) (t : list settlement),
    Forall (fun r =>
              let s := site (row r) in
              sub_score (row r) strategic_value_score
              = positive_flag (health_facilities_count s) * 60
                + positive_flag (schools_count s) * 40)
           (calculate_viability_scores log1p t).
Proof.
  intros log1p sorter t. apply Forall_forall. intros r Hr.
  apply output_row_scored in Hr.
  apply In_nth_error in Hr. destruct Hr as [i Hi].
  destruct (score_table_nth log1p t i _ Hi)
    as [s [m [rv [c [a [v [Hs [_ [_ [_ [_ [Hv Hrow]]]]]]]]]]]].
  rewrite Hrow. simpl. now apply (strategic_cell t i).
Qed.

(** X8: when the log-scaled metrics are above -1 on every row, the tier
    of every output row is read off [total_score] alone: Low on (0,40],
    Medium on (40,70], High above 70, and missing exactly when the score
    is 0. *)
Theorem tier_of_output_row :
  forall (log1p : Q -> Q) (sorter : SortValues) (t : list settlement),
    log_metrics_defined t ->
    Forall (fun r =>
              let total := total_score (row r) in
              (viability_tier r = Some Low <-> 0 < total <= 40) /\
              (viability_tier r = Some Medium <-> 40 < total <= 70) /\
              (viability_tier r = Some High <-> 70 < total) /\
              (viability_tier r = None <-> total == 0))
           (calculate_viability_scores log1p t).
Proof.
  intros log1p sorter t _. apply Forall_forall. intros r Hr.
  destruct (output_row_tier log1p t r Hr) as [-> [H0 H100]].
  set (x := total_score (row r)) in *. cbv zeta.
  destruct (tier_of_cases x) as [HL [HM [HH HN]]].
  destruct (Qlt_le_dec 0 x) as [Hpos|Hnp].
  - destruct (Qlt_le_dec 40 x) as [H40|H40].
    + destruct (Qlt_le_dec 70 x) as [H70|H70].
      * rewrite HH by lra.
        repeat split; intros; try discriminate; try lra; try reflexivity.
      * rewrite HM by lra.
        repeat split; intros; try discriminate; try lra; try reflexivity.
    + rewrite HL by lra.
      repeat split; intros; try discriminate; try lra; try reflexivity.
  - rewrite HN by (left; exact Hnp).
    repeat split; intros; try discriminate; try lra; try reflexivity.
Qed.

(** X8 on the two-site table. *)
Lemma tier_of_output_row_witness :
  Forall (fun r =>
            let total := total_score (row r) in
            (viability_tier r = Some Low <-> 0 < total <= 40) /\
            (viability_tier r = Some Medium <-> 40 < total <= 70) /\
            (viability_tier r = Some High <-> 70 < total) /\
            (viability_tier r = None <-> total == 0))
         (@calculate_viability_scores (fun x => x) stable_sorter
                                      Examples.strong_and_weak).
Proof.
  apply (tier_of_output_row (fun x => x) stable_sorter Examples.strong_and_weak).
  repeat constructor.
Defined.

(** X9: distance to the grid is scored unreversed: of two output rows, one
    whose feature has at least the irradiance and at least the distance of
    the other's has at least its [cost_efficiency_score]. *)
Theorem cost_efficiency_monotone :
  forall (log1p : Q -> Q) (sorter : SortValues) (t : list settlement)
         (a b : ranked),
    In a (calculate_viability_scores log1p t) ->
    In b (calculate_viability_scores log1p t) ->
    fillna0 (solar_ghi (site (row a))) <= fillna0 (solar_ghi (site (row b))) ->
    fillna0 (distance_to_grid_km (site (row a)))
    <= fillna0 (distance_to_grid_km (site (row b))) ->
    sub_score (row a) cost_efficiency_score
    <= sub_score (row b) cost_efficiency_score.
Proof.
  intros log1p sorter t a b Ha Hb Hg Hd.
  apply output_row_scored in Ha. apply output_row_scored in Hb.
  apply In_nth_error in Ha. destruct Ha as [i Hi].
  apply In_nth_error in Hb. destruct Hb as [j Hj].
  destruct (score_table_nth log1p t i _ Hi)
    as [sa [ma [ra [ca [aa [va [Hsa [_ [_ [Hca [_ [_ Hrowa]]]]]]]]]]]].
  destruct (score_table_nth log1p t j _ Hj)
    as [sb [mb [rb [cb [ab [vb [Hsb [_ [_ [Hcb [_ [_ Hrowb]]]]]]]]]]]].
  rewrite Hrowa, Hrowb in *. simpl in *.
  apply cost_efficiency_cell in Hca. destruct Hca as [ga [da [Hga [Hda ->]]]].
  apply cost_efficiency_cell in Hcb. destruct Hcb as [gb [db [Hgb [Hdb ->]]]].
  assert (Hpre : forall (f : settlement -> option Q) k s,
             nth_error t k = Some s ->
             nth_error (prepared log1p false (map f t)) k = Some (fillna0 (f s))).
  { intros f k s Hs. unfold prepared. rewrite !nth_error_map, Hs. reflexivity. }
  destruct (normalize_score_order log1p (map solar_ghi t) false i j _ _ ga gb
              (Hpre solar_ghi i sa Hsa) (Hpre solar_ghi j sb Hsb) Hga Hgb)
    as [Hgle _].
  destruct (normalize_score_order log1p (map distance_to_grid_km t) false
              i j _ _ da db
              (Hpre distance_to_grid_km i sa Hsa)
              (Hpre distance_to_grid_km j sb Hsb) Hda Hdb)
    as [Hdle _].
  specialize (Hgle Hg). specialize (Hdle Hd). lra.
Qed.
(** X9 on the two-site table. *)
Lemma cost_efficiency_monotone_witness :
  exists a b,
    In a (@calculate_viability_scores (fun x => x) stable_sorter
                                      Examples.strong_and_weak) /\
    In b (@calculate_viability_scores (fun x => x) stable_sorter
                                      Examples.strong_and_weak) /\
    site (row a) = Examples.weak_site /\
    site (row b) = Examples.strong_site /\
    sub_score (row a) cost_efficiency_score
    <= sub_score (row b) cost_efficiency_score.
Proof.
  assert (H : exists a b,
             @calculate_viability_scores (fun x => x) stable_sorter
                                         Examples.strong_and_weak = [b; a] /\
             site (row a) = Examples.weak_site /\
             site (row b) = Examples.strong_site).
  { do 2 eexists. split; [vm_compute; reflexivity|]. split; reflexivity. }
  destruct H as [a [b [Hout [Hsa Hsb]]]].
  assert (Ha : In a (@calculate_viability_scores (fun x => x) stable_sorter
                       Examples.strong_and_weak))
    by (rewrite Hout; simpl; auto).
  assert (Hb : In b (@calculate_viability_scores (fun x => x) stable_sorter
                       Examples.strong_and_weak))
    by (rewrite Hout; simpl; auto).
  exists a, b. repeat split; try assumption.
  apply (cost_efficiency_monotone (fun x => x) stable_sorter
           Examples.strong_and_weak a b Ha Hb);
    rewrite Hsa, Hsb; vm_compute; discriminate.
Defined.

Lemma normalize_singleton (log1p : Q -> Q) (x : option Q)
      (reverse log_scale : bool) :
  normalize_score log1p [x] reverse log_scale = [50].
Proof.
  rewrite normalize_score_degenerate; [reflexivity|].
  intros a b Ha Hb. simpl in Ha, Hb.
  destruct Ha as [<-|[]]; destruct Hb as [<-|[]]. reflexivity.
Qed.

(** X10: a table of one site has nothing to compare the site with: when
    the site's log-scaled metrics are above -1, each of its normalized
    sub-scores is 50, its [total_score] is 42.5 plus 0.15 times its
    strategic value, it has rank 1 and its tier is Medium, whatever else
    its metrics are. *)
Theorem single_site_table :
  forall (log1p : Q -> Q) (sorter : SortValues) (s : settlement),
    log_metrics_defined [s] ->
    exists r,
      calculate_viability_scores log1p [s] = [r] /\
      site (row r) = s /\
      rank r = 1%nat /\
      sub_score (row r) market_size_score == 50 /\
      sub_score (row r) revenue_potential_score == 50 /\
      sub_score (row r) cost_efficiency_score == 50 /\
      sub_score (row r) accessibility_score == 50 /\
      total_score (row r)
      == 42.5 + 0.15 * sub_score (row r) strategic_value_score /\
      viability_tier r = Some Medium.
Proof.
  intros log1p sorter s _.
  assert (Htable : exists x, score_table log1p [s] = [x] /\
                             site x = s /\
                             sub_score x market_size_score == 50 /\
                             sub_score x revenue_potential_score == 50 /\
                             sub_score x cost_efficiency_score == 50 /\
                             sub_score x accessibility_score == 50 /\
                             0 <= sub_score x strategic_value_score <= 100 /\
                             total_score x = weighted_total (sub_score x)).
  { unfold score_table, market_size_column, revenue_potential_column,
      cost_efficiency_column, accessibility_column.
    simpl map. rewrite !normalize_singleton.
    eexists. split; [reflexivity|]. simpl.
    repeat split; try reflexivity.
    - destruct (positive_flag_cases (health_facilities_count s)) as [-> | ->];
        destruct (positive_flag_cases (schools_count s)) as [-> | ->];
        discriminate.
    - destruct (positive_flag_cases (health_facilities_count s)) as [-> | ->];
        destruct (positive_flag_cases (schools_count s)) as [-> | ->];
        discriminate. }
  destruct Htable as [x [Hx [Hsite [Hm [Hr [Hc [Ha [Hv Htot]]]]]]]].
  assert (Hsorted : sort_values (score_table log1p [s]) = [x]).
  { rewrite Hx. apply Permutation_length_1_inv. apply sort_values_perm. }
  assert (Hsum : total_score x
                 == 42.5 + 0.15 * sub_score x strategic_value_score).
  { rewrite Htot, weighted_total_unfold, Hm, Hr, Hc, Ha. ring. }
  exists (mkRanked x 1 (tier_of (total_score x))).
  unfold calculate_viability_scores. rewrite Hsorted. simpl.
  repeat split; try assumption.
  destruct (tier_of_cases (total_score x)) as [_ [HM _]].
  apply HM. lra.
Qed.

(** X10 on the table that holds the weak site alone. *)
Lemma single_site_table_witness :
  exists r,
    @calculate_viability_scores (fun x => x) stable_sorter [Examples.weak_site]
    = [r] /\
    site (row r) = Examples.weak_site /\
    rank r = 1%nat /\
    sub_score (row r) market_size_score == 50 /\
    sub_score (row r) revenue_potential_score == 50 /\
    sub_score (row r) cost_efficiency_score == 50 /\
    sub_score (row r) accessibility_score == 50 /\
    total_score (row r)
    == 42.5 + 0.15 * sub_score (row r) strategic_value_score /\
    viability_tier r = Some Medium.
Proof.
  apply (single_site_table (fun x => x) stable_sorter Examples.weak_site).
  repeat constructor.
Defined.

End ScorerFacts.

(* ================================================================== *)
(** * Facts about the financial projections *)
(* ================================================================== *)

Module FinanceFacts.
Import Cell Finance.

(** ** Cells *)

Lemma fgt_zero (f : Q) : fgt (Fin f) (Fin 0) = true <-> 0 < f.
Proof.
  unfold fgt, flt. rewrite negb_true_iff. split.
  - apply Qle_bool_false.
  - intros H. destruct (Qle_bool f 0) eqn:E; [|reflexivity].
    apply Qle_bool_iff in E. lra.
Qed.

Lemma flt_finite (x y : Q) : flt (Fin x) (Fin y) = true <-> x < y.
Proof.
  unfold flt. rewrite negb_true_iff. split.
  - apply Qle_bool_false.
  - intros H. destruct (Qle_bool y x) eqn:E; [|reflexivity].
    apply Qle_bool_iff in E. lra.
Qed.

(** A rounded finite cell has one decimal place. *)
Lemma round1_one_decimal (a : fl) : is_finite a -> one_decimal (round1 a).
Proof.
  destruct a as [q| | |]; simpl; try contradiction. intros _.
  exists (rint (q * 10)). field.
Qed.

(** Rounding leaves the sentinel as it is. *)
Lemma round1_sentinel : holds (round1 (Fin 999)) 999.
Proof. reflexivity. Qed.

Lemma round1_zero (q : Q) : q == 0 -> holds (round1 (Fin q)) 0.
Proof.
  intros H. simpl. unfold rint.
  assert (Hq : q * 10 == 0) by (rewrite H; ring).
  assert (Hf : Qfloor (q * 10) = 0%Z).
  { rewrite (Qfloor_comp _ _ Hq). reflexivity. }
  rewrite Hf.
  assert (Hc : (q * 10 - inject_Z 0 ?= 1 # 2) = Lt).
  { apply Qlt_alt. rewrite Hq. reflexivity. }
  rewrite Hc. reflexivity.
Qed.

(** ** One row *)

Lemma project_fields (s : site) (a : projection) :
  project s = Some a ->
  origin a = s /\
  astype_int (fmul (fdiv (pop s) (Fin AVG_HOUSEHOLD_SIZE))
                   (Fin CUSTOMER_PENETRATION))
  = Some (estimated_customers a) /\
  estimated_demand_kwh_day a
  = Fin (inject_Z (estimated_customers a) * DAILY_KWH_PER_CUSTOMER) /\
  opex_annual_usd a = fmul (capex_estimate_usd a) (Fin OPEX_PERCENT) /\
  annual_cashflow_usd a = fsub (revenue_annual_usd a) (opex_annual_usd a) /\
  payback_years a = payback_of (capex_estimate_usd a) (annual_cashflow_usd a) /\
  npv_10yr_usd a
  = fadd (fopp (capex_estimate_usd a))
         (fmul (annual_cashflow_usd a) (Fin annuity_factor)) /\
  simple_yield_percent a
  = yield_of (capex_estimate_usd a) (annual_cashflow_usd a).
Proof.
  unfold project.
  destruct (astype_int _) as [customers|] eqn:Hc; [|discriminate].
  intros [= <-]. simpl. repeat split.
Qed.

Lemma project_all_rows (t : list site) (ann : frame) :
  project_all t = Some ann ->
  Forall2 (fun s a => project s = Some a) t ann.
Proof.
  revert ann. induction t as [|s rest IH]; intros ann; simpl.
  - intros [= <-]. constructor.
  - destruct (project s) as [p|] eqn:Hp; [|discriminate].
    destruct (project_all rest) as [ps|]; [|discriminate].
    intros [= <-]. constructor; [exact Hp | now apply IH].
Qed.

Lemma project_all_In (t : list site) (ann : frame) (a : projection) :
  project_all t = Some ann -> In a ann ->
  exists s, In s t /\ project s = Some a.
Proof.
  intros H Hin. apply project_all_rows in H.
  induction H as [|s p t' ann' Hp _ IH]; [contradiction|].
  destruct Hin as [<-|Hin].
  - exists s. split; [now left | exact Hp].
  - destruct (IH Hin) as [s' [Hs' Hp']]. exists s'. split; [now right | exact Hp'].
Qed.

(** ** The run *)

(** The two outputs in terms of the table after line 94. *)
Lemma run_outputs (input : list site) :
  run_financial_projections input
  = match annotated input with
    | Some ann => Some (map round_columns ann, filter is_viable ann)
    | None => None
    end.
Proof.
  unfold run_financial_projections, run, phase_annotate, phase_filter,
    phase_round, phase_export, annotated, bind, lift.
  destruct (project_all input) as [ann|]; reflexivity.
Qed.

Lemma run_some (input : list site) (full viable : frame) :
  run_financial_projections input = Some (full, viable) ->
  exists ann, annotated input = Some ann /\
              full = map round_columns ann /\
              viable = filter is_viable ann.
Proof.
  rewrite run_outputs. destruct (annotated input) as [ann|]; [|discriminate].
  intros [= <- <-]. now exists ann.
Qed.

(** ** Engineering sizing *)

Lemma truncate_nonneg (x : Q) :
  0 <= x -> Z.quot (Qnum x) (Z.pos (Qden x)) = Qfloor x.
Proof.
  intros Hx. destruct x as [n d]. simpl.
  apply Z.quot_div_nonneg; [|lia].
  unfold Qle in Hx. simpl in Hx. lia.
Qed.

Lemma customers_of_population (s : site) (a : projection) (q : Q) :
  project s = Some a -> pop s = Fin q ->
  estimated_customers a
  = (let x := q / AVG_HOUSEHOLD_SIZE * CUSTOMER_PENETRATION in
     Z.quot (Qnum x) (Z.pos (Qden x))).
Proof.
  intros Hp Hq. apply project_fields in Hp.
  destruct Hp as [_ [Hc _]]. rewrite Hq in Hc. simpl in Hc.
  now injection Hc as <-.
Qed.

Lemma Forall2_round_columns {A : Type} (P R : A -> projection -> Prop)
      (t : list A) (ann : frame) :
  (forall s a, P s a -> R s (round_columns a)) ->
  Forall2 P t ann -> Forall2 R t (map round_columns ann).
Proof.
  intros H. induction 1; simpl; constructor; auto.
Qed.

Lemma truncate_toward_zero (x : Q) :
  Z.quot (Qnum x) (Z.pos (Qden x)) = toward_zero x.
Proof.
  unfold toward_zero. destruct (Qle_bool 0 x) eqn:E.
  - apply Qle_bool_iff in E. now apply truncate_nonneg.
  - apply Qle_bool_false in E. destruct x as [n d].
    unfold Qceiling, Qfloor, Qopp. simpl.
    assert (Hn : (n < 0)%Z) by (unfold Qlt in E; simpl in E; lia).
    replace n with (- - n)%Z at 1 by lia.
    rewrite Z.quot_opp_l by lia.
    rewrite Z.quot_div_nonneg by lia. reflexivity.
Qed.

(** C9, as the code has it: in a run, row by row, [estimated_customers]
    is (pop / household size) x penetration cut toward zero by the integer
    cast, which is the floor when the population is not negative, and
    [estimated_demand_kwh_day] is the customers times the daily kWh per
    customer; 1000 people give 60 customers and 60 kWh a day. *)
Theorem customers_and_demand :
  forall (input : list site) (full viable : frame),
    run_financial_projections input = Some (full, viable) ->
    Forall2 (fun s p =>
               origin p = s /\
               estimated_demand_kwh_day p
               = Fin (inject_Z (estimated_customers p) * DAILY_KWH_PER_CUSTOMER) /\
               (forall q, pop s = Fin q ->
                          estimated_customers p
                          = toward_zero
                              (q / AVG_HOUSEHOLD_SIZE * CUSTOMER_PENETRATION)) /\
               (forall q, pop s = Fin q -> 0 <= q ->
                          estimated_customers p
                          = Qfloor (q / AVG_HOUSEHOLD_SIZE * CUSTOMER_PENETRATION)) /\
               (holds (pop s) 1000 ->
                estimated_customers p = 60%Z /\
                holds (estimated_demand_kwh_day p) 60))
            input full.
Proof.
  intros input full viable Hrun.
  apply run_some in Hrun. destruct Hrun as [ann [Hann [-> _]]].
  apply project_all_rows in Hann.
  eapply Forall2_round_columns; [|exact Hann].
  intros s a Hp. cbn beta.
  assert (Htrunc : forall q, pop s = Fin q ->
            estimated_customers a
            = toward_zero (q / AVG_HOUSEHOLD_SIZE * CUSTOMER_PENETRATION)).
  { intros q Hq. rewrite (customers_of_population s a q Hp Hq).
    cbv zeta. apply truncate_toward_zero. }
  assert (Hfloor : forall q, pop s = Fin q -> 0 <= q ->
            estimated_customers a
            = Qfloor (q / AVG_HOUSEHOLD_SIZE * CUSTOMER_PENETRATION)).
  { intros q Hq Hpos. rewrite (customers_of_population s a q Hp Hq).
    cbv zeta. apply truncate_nonneg.
    unfold AVG_HOUSEHOLD_SIZE, CUSTOMER_PENETRATION.
    apply Qmult_le_0_compat; [|lra].
    apply Qle_shift_div_l; lra. }
  destruct (project_fields s a Hp) as [Ho [_ [Hd _]]].
  simpl. repeat apply conj; try assumption.
  unfold holds at 1. destruct (pop s) as [q| | |] eqn:Hq; try contradiction.
  intros H1000.
  assert (Hx : q / AVG_HOUSEHOLD_SIZE * CUSTOMER_PENETRATION == 60).
  { rewrite H1000. reflexivity. }
  assert (Hc : estimated_customers a = 60%Z).
  { rewrite (Hfloor q eq_refl) by lra.
    rewrite (Qfloor_comp _ _ Hx). reflexivity. }
  split; [exact Hc|]. rewrite Hd, Hc. reflexivity.
Qed.

(** C9 on the scenario, 1000 people at the baseline GHI, and on a
    population recorded as -10. *)
Lemma customers_and_demand_witness :
  exists full viable,
    run_financial_projections [Sites.village; Sites.misrecorded]
    = Some (full, viable) /\
    Forall2 (fun s p =>
               origin p = s /\
               estimated_demand_kwh_day p
               = Fin (inject_Z (estimated_customers p) * DAILY_KWH_PER_CUSTOMER) /\
               (forall q, pop s = Fin q ->
                          estimated_customers p
                          = toward_zero
                              (q / AVG_HOUSEHOLD_SIZE * CUSTOMER_PENETRATION)) /\
               (forall q, pop s = Fin q -> 0 <= q ->
                          estimated_customers p
                          = Qfloor (q / AVG_HOUSEHOLD_SIZE * CUSTOMER_PENETRATION)) /\
               (holds (pop s) 1000 ->
                estimated_customers p = 60%Z /\
                holds (estimated_demand_kwh_day p) 60))
            [Sites.village; Sites.misrecorded] full.
Proof.
  do 2 eexists. split.
  - vm_compute. reflexivity.
  - eapply (customers_and_demand [Sites.village; Sites.misrecorded]).
    vm_compute. reflexivity.
Defined.

(** C9, the counterexample: for a population recorded as -10 the cast
    gives 0 customers, where the floor of -10 / 5 x 0.30 = -0.6 is -1. *)
Lemma customers_not_floor_below_zero :
  exists full viable p q,
    run_financial_projections [Sites.misrecorded] = Some (full, viable) /\
    In p full /\
    pop (origin p) = Fin q /\
    estimated_customers p = 0%Z /\
    Qfloor (q / AVG_HOUSEHOLD_SIZE * CUSTOMER_PENETRATION) = (-1)%Z /\
    estimated_customers p
    <> Qfloor (q / AVG_HOUSEHOLD_SIZE * CUSTOMER_PENETRATION).
Proof.
  do 4 eexists. split; [vm_compute; reflexivity|].
  split; [left; reflexivity|].
  split; [reflexivity|]. split; [reflexivity|].
  split; [reflexivity|]. discriminate.
Qed.

(** ** Payback *)

Lemma payback_of_sentinel (capex cashflow : fl) :
  fgt cashflow (Fin 0) = false -> payback_of capex cashflow = Fin 999.
Proof. unfold payback_of. now intros ->. Qed.

Lemma payback_of_ratio (c f : Q) :
  0 < f -> payback_of (Fin c) (Fin f) = Fin (c / f).
Proof.
  intros Hf. unfold payback_of.
  rewrite (proj2 (fgt_zero f) Hf). simpl.
  destruct (Qeq_bool f 0) eqn:E; [|reflexivity].
  apply Qeq_bool_iff in E. lra.
Qed.

Lemma fgt_nonpositive (f : Q) : f <= 0 -> fgt (Fin f) (Fin 0) = false.
Proof.
  intros Hf. destruct (fgt (Fin f) (Fin 0)) eqn:E; [|reflexivity].
  apply fgt_zero in E. lra.
Qed.

(** C4, as the code has it: the payback computed on a row is the sentinel
    999 when the annual cash flow is not positive (zero, negative or
    undefined) and CAPEX divided by the cash flow when it is positive; the
    viable subset keeps that value, and the full table reports it rounded
    to one decimal, which leaves the sentinel 999. *)
Theorem payback_sentinel_or_ratio :
  forall (input : list site) (full viable : frame),
    run_financial_projections input = Some (full, viable) ->
    exists ann,
      annotated input = Some ann /\
      full = map round_columns ann /\
      viable = filter is_viable ann /\
      Forall (fun a =>
                (forall f, annual_cashflow_usd a = Fin f -> f <= 0 ->
                           payback_years a = Fin 999) /\
                (fgt (annual_cashflow_usd a) (Fin 0) = false ->
                 payback_years a = Fin 999 /\
                 holds (payback_years (round_columns a)) 999) /\
                (forall c f, capex_estimate_usd a = Fin c ->
                             annual_cashflow_usd a = Fin f -> 0 < f ->
                             payback_years a = Fin (c / f)) /\
                payback_years (round_columns a) = round1 (payback_years a))
             ann.
Proof.
  intros input full viable Hrun.
  destruct (run_some _ _ _ Hrun) as [ann [Hann [Hfull Hviable]]].
  exists ann. repeat split; try assumption.
  apply Forall_forall. intros a Ha.
  destruct (project_all_In _ _ _ Hann Ha) as [s [_ Hp]].
  destruct (project_fields s a Hp) as [_ [_ [_ [_ [_ [Hpay _]]]]]].
  repeat apply conj.
  - intros f Hf Hle. rewrite Hpay, Hf.
    apply payback_of_sentinel. now apply fgt_nonpositive.
  - intros Hng.
    assert (H999 : payback_years a = Fin 999)
      by (rewrite Hpay; now apply payback_of_sentinel).
    split; [exact H999|]. simpl payback_years. rewrite H999. reflexivity.
  - intros c f Hc Hf Hpos. rewrite Hpay, Hc, Hf. now apply payback_of_ratio.
  - reflexivity.
Qed.

(** C4 on a run with a paying site and a site without customers. *)
Lemma payback_sentinel_or_ratio_witness :
  exists full viable ann,
    run_financial_projections [Sites.hamlet; Sites.deserted]
    = Some (full, viable) /\
    annotated [Sites.hamlet; Sites.deserted] = Some ann /\
    full = map round_columns ann /\
    viable = filter is_viable ann /\
    Forall (fun a =>
              (forall f, annual_cashflow_usd a = Fin f -> f <= 0 ->
                         payback_years a = Fin 999) /\
              (fgt (annual_cashflow_usd a) (Fin 0) = false ->
               payback_years a = Fin 999 /\
               holds (payback_years (round_columns a)) 999) /\
              (forall c f, capex_estimate_usd a = Fin c ->
                           annual_cashflow_usd a = Fin f -> 0 < f ->
                           payback_years a = Fin (c / f)) /\
              payback_years (round_columns a) = round1 (payback_years a))
           ann.
Proof.
  assert (Hrun : exists full viable,
             run_financial_projections [Sites.hamlet; Sites.deserted]
             = Some (full, viable)).
  { do 2 eexists. vm_compute. reflexivity. }
  destruct Hrun as [full [viable Hrun]].
  destruct (payback_sentinel_or_ratio _ _ _ Hrun) as [ann H].
  exists full, viable, ann. split; [exact Hrun | exact H].
Defined.

(** C4, the counterexample: a row of the full output whose cash flow is
    positive and whose [payback_years] is not its CAPEX divided by its cash
    flow (6525 / 855.9 is reported as 7.6). *)
Lemma payback_rounded_in_full_output :
  exists full viable p c f y,
    run_financial_projections [Sites.hamlet] = Some (full, viable) /\
    In p full /\
    capex_estimate_usd p = Fin c /\
    annual_cashflow_usd p = Fin f /\
    0 < f /\
    payback_years p = Fin y /\
    ~ y == c / f.
Proof.
  do 6 eexists. split; [vm_compute; reflexivity|].
  split; [left; reflexivity|].
  split; [reflexivity|]. split; [reflexivity|].
  split; [reflexivity|]. split; [reflexivity|].
  intros H. vm_compute in H. discriminate H.
Qed.

(** ** The store *)

Lemma nth_error_snoc_old {A : Type} (h : list A) (x : A) (r : nat) (y : A) :
  nth_error h r = Some y -> nth_error (h ++ [x]) r = Some y.
Proof.
  intros H. rewrite nth_error_app1; [exact H|].
  apply nth_error_Some. congruence.
Qed.

Lemma nth_error_snoc_new {A : Type} (h : list A) (x : A) :
  nth_error (h ++ [x]) (List.length h) = Some x.
Proof.
  rewrite nth_error_app2 by lia. now rewrite Nat.sub_diag.
Qed.

Lemma overwrite_same (h : store) (r : ref) (f : frame) (h' : store) :
  overwrite h r f = Some h' -> nth_error h' r = Some f.
Proof.
  revert r h'. induction h as [|g t IH]; intros r h'; simpl.
  - destruct r; discriminate.
  - destruct r as [|r].
    + intros [= <-]. reflexivity.
    + destruct (overwrite t r f) as [t'|] eqn:E; [|discriminate].
      intros [= <-]. simpl. now apply IH.
Qed.

Lemma overwrite_other (h : store) (r : ref) (f : frame) (h' : store) (v : ref) :
  overwrite h r f = Some h' -> v <> r -> nth_error h' v = nth_error h v.
Proof.
  revert r h' v. induction h as [|g t IH]; intros r h' v; simpl.
  - destruct r; discriminate.
  - destruct r as [|r].
    + intros [= <-] Hv. destruct v; [congruence | reflexivity].
    + destruct (overwrite t r f) as [t'|] eqn:E; [|discriminate].
      intros [= <-] Hv. destruct v as [|v]; [reflexivity|].
      simpl. eapply IH; [exact E | congruence].
Qed.

Lemma overwrite_defined (h : store) (r : ref) (f g : frame) :
  nth_error h r = Some g -> exists h', overwrite h r f = Some h'.
Proof.
  revert r. induction h as [|x t IH]; intros r; simpl.
  - destruct r; discriminate.
  - destruct r as [|r]; [eauto|].
    intros H. destruct (IH r H) as [t' ->]. eauto.
Qed.

(** The filter step on any store: a fresh object holds the selected rows
    and [settlements] still holds what it held. *)
Lemma phase_filter_spec (h : store) (settlements : ref) (t : frame) :
  nth_error h settlements = Some t ->
  exists viable_sites h',
    phase_filter settlements h = Some (viable_sites, h') /\
    viable_sites <> settlements /\
    nth_error h' settlements = Some t /\
    nth_error h' viable_sites = Some (filter is_viable t).
Proof.
  intros Ht. unfold phase_filter, bind, load, alloc. rewrite Ht.
  rewrite nth_error_snoc_new.
  eexists. eexists. split; [reflexivity|].
  assert (Hlt : (settlements < List.length h)%nat)
    by (apply nth_error_Some; congruence).
  repeat split.
  - rewrite length_app. simpl. lia.
  - now do 2 apply nth_error_snoc_old.
  - apply nth_error_snoc_new.
Qed.

(** The rounding step writes [settlements] and nothing else. *)
Lemma phase_round_spec (h : store) (settlements : ref) (t : frame) :
  nth_error h settlements = Some t ->
  exists h',
    phase_round settlements h = Some (tt, h') /\
    nth_error h' settlements = Some (map round_columns t) /\
    forall v, v <> settlements -> nth_error h' v = nth_error h v.
Proof.
  intros Ht. unfold phase_round, bind, load, save. rewrite Ht.
  destruct (overwrite_defined h settlements (map round_columns t) t Ht)
    as [h' Hw].
  rewrite Hw. exists h'. split; [reflexivity|]. split.
  - eapply overwrite_same. exact Hw.
  - intros v Hv. eapply overwrite_other; eauto.
Qed.

Lemma is_viable_finite (p : projection) (n y : Q) :
  npv_10yr_usd p = Fin n -> payback_years p = Fin y ->
  (is_viable p = true <-> 0 < n /\ y < 7).
Proof.
  intros Hn Hy. unfold is_viable. rewrite Hn, Hy, andb_true_iff.
  now rewrite fgt_zero, flt_finite.
Qed.

(** C6: the filter selects exactly the rows with [npv_10yr_usd > 0] and
    [payback_years < 7] (for finite values, 0 < npv and payback < 7), in a
    new object; the object [settlements] is another one and still holds the
    full table. *)
Theorem bankability_filter :
  forall (h : store) (settlements : ref) (t : frame),
    nth_error h settlements = Some t ->
    exists viable_sites h' selected,
      phase_filter settlements h = Some (viable_sites, h') /\
      viable_sites <> settlements /\
      nth_error h' settlements = Some t /\
      nth_error h' viable_sites = Some selected /\
      selected = filter is_viable t /\
      (forall p, In p selected <->
                 In p t /\
                 fgt (npv_10yr_usd p) (Fin 0) = true /\
                 flt (payback_years p) (Fin 7) = true) /\
      (forall p n y, npv_10yr_usd p = Fin n -> payback_years p = Fin y ->
                     (In p selected <-> In p t /\ 0 < n /\ y < 7)).
Proof.
  intros h settlements t Ht.
  destruct (phase_filter_spec h settlements t Ht)
    as [v [h' [Hrun [Hne [Hs Hv]]]]].
  exists v, h', (filter is_viable t).
  repeat apply conj; try assumption; try reflexivity.
  - intros p. rewrite filter_In. unfold is_viable.
    now rewrite andb_true_iff.
  - intros p n y Hn Hy. rewrite filter_In.
    now rewrite (is_viable_finite p n y Hn Hy).
Qed.

(** C6 on a store that holds one table. *)
Lemma bankability_filter_witness :
  exists viable_sites h' selected,
    phase_filter 0%nat [Sites.sample_frame] = Some (viable_sites, h') /\
    viable_sites <> 0%nat /\
    nth_error h' 0%nat = Some Sites.sample_frame /\
    nth_error h' viable_sites = Some selected /\
    selected = filter is_viable Sites.sample_frame /\
    (forall p, In p selected <->
               In p Sites.sample_frame /\
               fgt (npv_10yr_usd p) (Fin 0) = true /\
               flt (payback_years p) (Fin 7) = true) /\
    (forall p n y, npv_10yr_usd p = Fin n -> payback_years p = Fin y ->
                   (In p selected <-> In p Sites.sample_frame /\ 0 < n /\ y < 7)).
Proof.
  apply (bankability_filter [Sites.sample_frame] 0%nat Sites.sample_frame).
  reflexivity.
Defined.

(** ** Rounding for the report *)

(** C7, as the code has it: in the full table exactly the six listed
    columns are rounded, each to a value with one decimal place when
    finite; [opex_annual_usd], [annual_cashflow_usd] and the sizing columns
    are written as computed, and so is every column of the viable subset. *)
Theorem rounded_columns :
  forall (input : list site) (full viable : frame),
    run_financial_projections input = Some (full, viable) ->
    exists ann,
      annotated input = Some ann /\
      viable = filter is_viable ann /\
      Forall2 (fun a p =>
                 system_size_kw p = round1 (system_size_kw a) /\
                 capex_estimate_usd p = round1 (capex_estimate_usd a) /\
                 revenue_annual_usd p = round1 (revenue_annual_usd a) /\
                 npv_10yr_usd p = round1 (npv_10yr_usd a) /\
                 payback_years p = round1 (payback_years a) /\
                 simple_yield_percent p = round1 (simple_yield_percent a) /\
                 opex_annual_usd p = opex_annual_usd a /\
                 annual_cashflow_usd p = annual_cashflow_usd a /\
                 estimated_demand_kwh_day p = estimated_demand_kwh_day a /\
                 estimated_customers p = estimated_customers a /\
                 origin p = origin a)
              ann full /\
      (forall x, is_finite x -> one_decimal (round1 x)).
Proof.
  intros input full viable Hrun.
  destruct (run_some _ _ _ Hrun) as [ann [Hann [-> ->]]].
  exists ann. repeat apply conj; try assumption; try reflexivity.
  - clear. induction ann as [|a t IH]; simpl; constructor; [|exact IH].
    repeat split.
  - apply round1_one_decimal.
Qed.

(** C7 on a run of two sites. *)
Lemma rounded_columns_witness :
  exists full viable ann,
    run_financial_projections [Sites.sunny; Sites.roadside]
    = Some (full, viable) /\
    annotated [Sites.sunny; Sites.roadside] = Some ann /\
    viable = filter is_viable ann /\
    Forall2 (fun a p =>
               system_size_kw p = round1 (system_size_kw a) /\
               capex_estimate_usd p = round1 (capex_estimate_usd a) /\
               revenue_annual_usd p = round1 (revenue_annual_usd a) /\
               npv_10yr_usd p = round1 (npv_10yr_usd a) /\
               payback_years p = round1 (payback_years a) /\
               simple_yield_percent p = round1 (simple_yield_percent a) /\
               opex_annual_usd p = opex_annual_usd a /\
               annual_cashflow_usd p = annual_cashflow_usd a /\
               estimated_demand_kwh_day p = estimated_demand_kwh_day a /\
               estimated_customers p = estimated_customers a /\
               origin p = origin a)
            ann full /\
    (forall x, is_finite x -> one_decimal (round1 x)).
Proof.
  assert (Hrun : exists full viable,
             run_financial_projections [Sites.sunny; Sites.roadside]
             = Some (full, viable)).
  { do 2 eexists. vm_compute. reflexivity. }
  destruct Hrun as [full [viable Hrun]].
  destruct (rounded_columns _ _ _ Hrun) as [ann H].
  exists full, viable, ann. split; [exact Hrun | exact H].
Defined.

(** C7, the counterexample: a row of the full output whose
    [opex_annual_usd] is finite and has more than one decimal place
    (2612.61). *)
Lemma opex_not_rounded_in_full_output :
  exists full viable p,
    run_financial_projections [Sites.roadside] = Some (full, viable) /\
    In p full /\
    is_finite (opex_annual_usd p) /\
    ~ one_decimal (opex_annual_usd p).
Proof.
  do 3 eexists. split; [vm_compute; reflexivity|].
  split; [left; reflexivity|]. split; [exact I|].
  simpl. intros [z Hz]. unfold Qeq in Hz. simpl in Hz. lia.
Qed.

(** ** Yield *)

Lemma yield_of_finite (capex cashflow : fl) :
  is_finite (yield_of capex cashflow).
Proof.
  unfold yield_of.
  destruct (fmul (fdiv cashflow capex) (Fin 100)); exact I.
Qed.

Lemma yield_of_zero_capex (c : Q) (cashflow : fl) :
  c == 0 -> holds (yield_of (Fin c) cashflow) 0.
Proof.
  intros Hc. apply Qeq_bool_iff in Hc. unfold yield_of.
  destruct cashflow as [f| | |]; simpl; rewrite ?Hc; simpl;
    try reflexivity.
  destruct (f ?= 0); reflexivity.
Qed.

(** C8: the yield of every row is a finite value, in the table as computed
    and in the full output, and it is 0 on a row whose computed CAPEX is 0,
    whatever the cash flow is. *)
Theorem yield_guarded :
  forall (input : list site) (full viable : frame),
    run_financial_projections input = Some (full, viable) ->
    exists ann,
      annotated input = Some ann /\
      full = map round_columns ann /\
      viable = filter is_viable ann /\
      Forall (fun a =>
                is_finite (simple_yield_percent a) /\
                is_finite (simple_yield_percent (round_columns a)) /\
                (holds (capex_estimate_usd a) 0 ->
                 holds (simple_yield_percent a) 0 /\
                 holds (simple_yield_percent (round_columns a)) 0))
             ann.
Proof.
  intros input full viable Hrun.
  destruct (run_some _ _ _ Hrun) as [ann [Hann [Hfull Hviable]]].
  exists ann. repeat split; try assumption.
  apply Forall_forall. intros a Ha.
  destruct (project_all_In _ _ _ Hann Ha) as [s [_ Hp]].
  destruct (project_fields s a Hp) as [_ [_ [_ [_ [_ [_ [_ Hy]]]]]]].
  assert (Hfin : is_finite (simple_yield_percent a))
    by (rewrite Hy; apply yield_of_finite).
  repeat apply conj.
  - exact Hfin.
  - simpl. destruct (simple_yield_percent a); [exact I | contradiction ..].
  - intros Hc. destruct (capex_estimate_usd a) as [c| | |] eqn:Ec;
      try contradiction.
    simpl in Hc.
    pose proof (yield_of_zero_capex c (annual_cashflow_usd a) Hc) as H0.
    rewrite <- Hy in H0. split; [exact H0|].
    simpl simple_yield_percent.
    destruct (simple_yield_percent a) as [q| | |]; try contradiction.
    now apply round1_zero.
Qed.

(** C8 on a run with a site whose CAPEX is 0. *)
Lemma yield_guarded_witness :
  exists full viable ann,
    run_financial_projections [Sites.deserted; Sites.sunny]
    = Some (full, viable) /\
    annotated [Sites.deserted; Sites.sunny] = Some ann /\
    full = map round_columns ann /\
    viable = filter is_viable ann /\
    Forall (fun a =>
              is_finite (simple_yield_percent a) /\
              is_finite (simple_yield_percent (round_columns a)) /\
              (holds (capex_estimate_usd a) 0 ->
               holds (simple_yield_percent a) 0 /\
               holds (simple_yield_percent (round_columns a)) 0))
           ann.
Proof.
  assert (Hrun : exists full viable,
             run_financial_projections [Sites.deserted; Sites.sunny]
             = Some (full, viable)).
  { do 2 eexists. vm_compute. reflexivity. }
  destruct Hrun as [full [viable Hrun]].
  destruct (yield_guarded _ _ _ Hrun) as [ann H].
  exists full, viable, ann. split; [exact Hrun | exact H].
Defined.

(** ** Selection before rounding *)

Lemma phase_annotate_spec (input : list site) (ann : frame) :
  annotated input = Some ann ->
  phase_annotate input [] = Some (0%nat, [ann]).
Proof.
  unfold annotated, phase_annotate, bind, lift. now intros ->.
Qed.

(** C10: in a run the viable subset is selected from the table as computed
    and copied into an object of its own; rounding then rewrites the object
    [settlements] only, so after it the subset is still the selection made
    on unrounded values, with unrounded cells, and that is what the CSV
    gets, while the GeoJSON gets the rounded full table. *)
Theorem rounding_after_selection :
  forall (input : list site) (full viable : frame),
    run_financial_projections input = Some (full, viable) ->
    exists ann settlements viable_sites h1 h2 h3,
      annotated input = Some ann /\
      phase_annotate input [] = Some (settlements, h1) /\
      phase_filter settlements h1 = Some (viable_sites, h2) /\
      phase_round settlements h2 = Some (tt, h3) /\
      phase_export settlements viable_sites h3 = Some ((full, viable), h3) /\
      viable_sites <> settlements /\
      nth_error h2 settlements = Some ann /\
      nth_error h2 viable_sites = Some (filter is_viable ann) /\
      nth_error h3 viable_sites = Some (filter is_viable ann) /\
      nth_error h3 settlements = Some (map round_columns ann) /\
      viable = filter is_viable ann /\
      full = map round_columns ann.
Proof.
  intros input full viable Hrun.
  destruct (run_some _ _ _ Hrun) as [ann [Hann [Hfull Hviable]]].
  pose proof (phase_annotate_spec input ann Hann) as H1.
  destruct (phase_filter_spec [ann] 0%nat ann eq_refl)
    as [v [h2 [H2 [Hne [Hs2 Hv2]]]]].
  destruct (phase_round_spec h2 0%nat ann Hs2) as [h3 [H3 [Hs3 Hframe]]].
  assert (Hv3 : nth_error h3 v = Some (filter is_viable ann))
    by (rewrite (Hframe v Hne); exact Hv2).
  exists ann, 0%nat, v, [ann], h2, h3.
  repeat apply conj; try assumption.
  unfold phase_export, bind, load, ret. rewrite Hs3, Hv3.
  now rewrite Hfull, Hviable.
Qed.

(** C10 on a run with a site that only the unrounded NPV selects. *)
Lemma rounding_after_selection_witness :
  exists full viable ann settlements viable_sites h1 h2 h3,
    run_financial_projections [Sites.marginal; Sites.hamlet]
    = Some (full, viable) /\
    annotated [Sites.marginal; Sites.hamlet] = Some ann /\
    phase_annotate [Sites.marginal; Sites.hamlet] [] = Some (settlements, h1) /\
    phase_filter settlements h1 = Some (viable_sites, h2) /\
    phase_round settlements h2 = Some (tt, h3) /\
    phase_export settlements viable_sites h3 = Some ((full, viable), h3) /\
    viable_sites <> settlements /\
    nth_error h2 settlements = Some ann /\
    nth_error h2 viable_sites = Some (filter is_viable ann) /\
    nth_error h3 viable_sites = Some (filter is_viable ann) /\
    nth_error h3 settlements = Some (map round_columns ann) /\
    viable = filter is_viable ann /\
    full = map round_columns ann.
Proof.
  assert (Hrun : exists full viable,
             run_financial_projections [Sites.marginal; Sites.hamlet]
             = Some (full, viable)).
  { do 2 eexists. vm_compute. reflexivity. }
  destruct Hrun as [full [viable Hrun]].
  destruct (rounding_after_selection _ _ _ Hrun)
    as [ann [s [v [h1 [h2 [h3 H]]]]]].
  exists full, viable, ann, s, v, h1, h2, h3. split; [exact Hrun | exact H].
Defined.

(** The order of the two steps matters: the site [marginal] is selected on
    its unrounded NPV of about two cents and would not be selected on the
    rounded one, which is 0. *)
Lemma selection_differs_on_rounded_values :
  exists ann,
    annotated [Sites.marginal] = Some ann /\
    List.length (filter is_viable ann) = 1%nat /\
    filter is_viable (map round_columns ann) = [].
Proof.
  eexists. split; [vm_compute; reflexivity|].
  split; vm_compute; reflexivity.
Qed.

(** ** When the run raises *)

Lemma project_defined (s : site) :
  is_finite (pop s) <-> exists a, project s = Some a.
Proof.
  unfold project. destruct (pop s) as [q| | |]; simpl; split;
    try (intros []; fail); try (intros [a Ha]; discriminate);
    try (intros _; eauto); try (intros _; exact I).
Qed.

Lemma project_all_defined (t : list site) :
  Forall (fun s => is_finite (pop s)) t <-> exists ann, project_all t = Some ann.
Proof.
  induction t as [|s rest IH]; simpl.
  - split; [eauto | constructor].
  - split.
    + intros H. inversion H as [|? ? Hs Hrest]; subst.
      apply project_defined in Hs. destruct Hs as [a ->].
      apply IH in Hrest. destruct Hrest as [ann ->]. eauto.
    + intros [ann H].
      destruct (project s) as [a|] eqn:Ha; [|discriminate].
      destruct (project_all rest) as [ps|] eqn:Hps; [|discriminate].
      constructor.
      * apply project_defined. eauto.
      * apply IH. eauto.
Qed.

Lemma project_all_length (t : list site) (ann : frame) :
  project_all t = Some ann -> List.length ann = List.length t.
Proof.
  intros H. apply project_all_rows in H.
  induction H; simpl; congruence.
Qed.

Lemma project_all_origin (t : list site) (ann : frame) :
  project_all t = Some ann -> map origin ann = t.
Proof.
  intros H. apply project_all_rows in H.
  induction H as [|s a t' ann' Hp _ IH]; simpl; [reflexivity|].
  destruct (project_fields s a Hp) as [-> _]. now rewrite IH.
Qed.

Section Report.
Context {by_npv : SortNpv}.

(** The run with its summary, in terms of the table after line 94. *)
Lemma run_with_report_outputs (input : list site) :
  run_with_report input
  = match annotated input with
    | Some ann =>
        if Nat.eqb (List.length ann) 0 then None
        else
          let viable := filter is_viable ann in
          Some (map round_columns ann, viable,
                mkReport (List.length ann) (List.length viable)
                  (inject_Z (Z.of_nat (List.length viable))
                   / inject_Z (Z.of_nat (List.length ann)))
                  (fdiv (column_sum (map capex_estimate_usd viable))
                        (Fin 1000000))
                  (firstn 5 (sort_npv viable)))
    | None => None
    end.
Proof.
  unfold run_with_report, phase_annotate, phase_filter, phase_round,
    phase_summary, phase_export, annotated, bind, lift.
  destruct (project_all input) as [ann|]; [|reflexivity].
  simpl. rewrite length_map.
  destruct (Nat.eqb (List.length ann) 0); reflexivity.
Qed.

End Report.

(** X11: on a table that has the columns the run reads ([pop],
    [solar_ghi], [distance_to_grid_km]; a table without one of them raises
    a KeyError and is not a value of [list site]), the run raises, and so
    writes neither file, in exactly two cases: the table has no rows (the
    bankable share divides by the number of sites) or some site has a
    population that is missing or infinite ([astype(int)] refuses it). *)
Theorem run_raises_iff :
  forall (by_npv : SortNpv) (input : list site),
    run_with_report input = None <->
    input = [] \/ Exists (fun s => ~ is_finite (pop s)) input.
Proof.
  intros by_npv input. rewrite run_with_report_outputs. unfold annotated.
  destruct (project_all input) as [ann|] eqn:Hann.
  - pose proof (project_all_length _ _ Hann) as Hlen.
    assert (Hfin : Forall (fun s => is_finite (pop s)) input)
      by (apply project_all_defined; eauto).
    destruct (Nat.eqb (List.length ann) 0) eqn:E.
    + apply Nat.eqb_eq in E. split; [|reflexivity]. intros _. left.
      rewrite Hlen in E. now apply length_zero_iff_nil.
    + apply Nat.eqb_neq in E. split; [discriminate|].
      intros [-> | Hex].
      * simpl in Hlen. congruence.
      * exfalso. apply Exists_exists in Hex. destruct Hex as [s [Hs Hn]].
        rewrite Forall_forall in Hfin. now apply Hn, Hfin.
  - split; [|reflexivity]. intros _. right.
    apply Exists_exists.
    assert (Hnot : ~ Forall (fun s => is_finite (pop s)) input).
    { intros H. apply project_all_defined in H. destruct H as [ann H].
      congruence. }
    clear Hann. induction input as [|s rest IH].
    + exfalso. apply Hnot. constructor.
    + destruct (pop s) as [q| | |] eqn:Hp.
      * assert (Hrest : ~ Forall (fun s => is_finite (pop s)) rest).
        { intros H. apply Hnot. constructor; [now rewrite Hp | exact H]. }
        destruct (IH Hrest) as [s' [Hin Hs']].
        exists s'. split; [now right | exact Hs'].
      * exists s. split; [now left | rewrite Hp; auto].
      * exists s. split; [now left | rewrite Hp; auto].
      * exists s. split; [now left | rewrite Hp; auto].
Qed.
(** ** The summary *)

Lemma before_desc_finite (x y : Q) :
  before_desc (Fin x) (Fin y) = Qle_bool y x.
Proof. simpl. now destruct (Qle_bool y x). Qed.

Lemma before_desc_total (a b : fl) :
  before_desc a b = false -> before_desc b a = true.
Proof.
  destruct a as [x| | |], b as [y| | |];
    rewrite ?before_desc_finite; try reflexivity; try discriminate.
  intros H. apply Qle_bool_false in H. apply Qle_bool_iff. lra.
Qed.

Lemma before_desc_trans (a b c : fl) :
  before_desc a b = true -> before_desc b c = true -> before_desc a c = true.
Proof.
  destruct a as [x| | |], b as [y| | |], c as [z| | |];
    rewrite ?before_desc_finite; try reflexivity; try discriminate.
  intros H1 H2. apply Qle_bool_iff in H1, H2. apply Qle_bool_iff. lra.
Qed.

Lemma insert_npv_perm (x : projection) (l : frame) :
  Permutation (x :: l) (insert_npv x l).
Proof.
  induction l as [|y t IH]; simpl; [apply Permutation_refl|].
  destruct (before_desc _ _).
  - eapply perm_trans; [apply perm_swap|]. now apply perm_skip.
  - apply Permutation_refl.
Qed.

Lemma insertion_sort_npv_perm (l : frame) :
  Permutation l (insertion_sort_npv l).
Proof.
  induction l as [|x t IH]; simpl; [constructor|].
  eapply perm_trans; [apply perm_skip; exact IH | apply insert_npv_perm].
Qed.

Lemma insert_npv_sorted (x : projection) (l : frame) :
  Sorted npv_desc l -> Sorted npv_desc (insert_npv x l).
Proof.
  induction 1 as [|y t Ht IH Hy]; simpl.
  - repeat constructor.
  - destruct (before_desc (npv_10yr_usd y) (npv_10yr_usd x)) eqn:Hc.
    + constructor; [exact IH|].
      destruct t as [|z t']; simpl.
      * now constructor.
      * destruct (before_desc (npv_10yr_usd z) (npv_10yr_usd x));
          constructor; [now inversion Hy | exact Hc].
    + apply before_desc_total in Hc.
      constructor; [now constructor | now constructor].
Qed.

Lemma insertion_sort_npv_sorted (l : frame) :
  StronglySorted npv_desc (insertion_sort_npv l).
Proof.
  apply Sorted_StronglySorted.
  - intros x y z. unfold npv_desc. apply before_desc_trans.
  - induction l as [|x t IH]; simpl; [constructor|].
    now apply insert_npv_sorted.
Qed.

Definition insertion_by_npv : SortNpv :=
  {| sort_npv := insertion_sort_npv;
     sort_npv_perm := insertion_sort_npv_perm;
     sort_npv_desc := insertion_sort_npv_sorted |}.

Lemma strongly_sorted_split {A : Type} (R : A -> A -> Prop) (n : nat)
      (l : list A) :
  StronglySorted R l ->
  forall a b, In a (firstn n l) -> In b (skipn n l) -> R a b.
Proof.
  intros H. revert n. induction H as [|x t Ht IH Hx]; intros n a b Ha Hb.
  - rewrite firstn_nil in Ha. contradiction.
  - destruct n as [|n]; simpl in Ha, Hb; [contradiction|].
    destruct Ha as [<-|Ha].
    + rewrite Forall_forall in Hx. apply Hx.
      rewrite <- (firstn_skipn n t). apply in_or_app. now right.
    + now apply (IH n).
Qed.

Lemma filter_length_le {A : Type} (f : A -> bool) (l : list A) :
  (List.length (filter f l) <= List.length l)%nat.
Proof.
  induction l as [|x t IH]; simpl; [lia|].
  destruct (f x); simpl; lia.
Qed.

(** X12: when the run does not raise, the two files are those of
    [run_financial_projections]; the summary counts every input site and
    every viable row, the bankable share lies in [0,1], the full table has
    one row per input site in file order, and the sites shown as top are at
    most five viable rows, none with a smaller NPV than a viable row that
    is not shown. *)
Theorem report_of_run :
  forall (by_npv : SortNpv) (input : list site) (full viable : frame)
         (r : report),
    run_with_report input = Some (full, viable, r) ->
    run_financial_projections input = Some (full, viable) /\
    map origin full = input /\
    total_sites r = List.length input /\
    bankable r = List.length viable /\
    (bankable r <= total_sites r)%nat /\
    0 <= bankable_share r <= 1 /\
    (List.length (top_sites r) <= 5)%nat /\
    (forall p, In p (top_sites r) -> In p viable) /\
    (forall p q, In p (top_sites r) -> In q viable -> ~ In q (top_sites r) ->
                 before_desc (npv_10yr_usd p) (npv_10yr_usd q) = true).
Proof.
  intros by_npv input full viable r.
  rewrite run_with_report_outputs, run_outputs.
  destruct (annotated input) as [ann|] eqn:Hann; [|discriminate].
  destruct (Nat.eqb (List.length ann) 0) eqn:E; [discriminate|].
  apply Nat.eqb_neq in E. cbv zeta.
  set (top := firstn 5 (sort_npv (filter is_viable ann))).
  intros [= <- <- <-].
  cbn [total_sites bankable bankable_share top_sites]. unfold top. clear top.
  pose proof (project_all_length _ _ Hann) as Hlen.
  pose proof (filter_length_le is_viable ann) as Hle.
  repeat apply conj.
  - reflexivity.
  - rewrite map_map. simpl. rewrite <- (project_all_origin _ _ Hann).
    apply map_ext. reflexivity.
  - exact Hlen.
  - reflexivity.
  - exact Hle.
  - apply Qle_shift_div_l.
    + change 0 with (inject_Z 0). rewrite <- Zlt_Qlt. lia.
    + rewrite Qmult_0_l. change 0 with (inject_Z 0). rewrite <- Zle_Qle. lia.
  - apply Qle_shift_div_r.
    + change 0 with (inject_Z 0). rewrite <- Zlt_Qlt. lia.
    + rewrite Qmult_1_l. rewrite <- Zle_Qle. lia.
  - apply firstn_le_length.
  - intros p Hp.
    apply (Permutation_in _ (Permutation_sym (sort_npv_perm (filter is_viable ann)))).
    rewrite <- (firstn_skipn 5 (sort_npv _)). apply in_or_app. now left.
  - intros p q Hp Hq Hnot.
    apply (strongly_sorted_split _ 5 _ (sort_npv_desc (filter is_viable ann)));
      [exact Hp|].
    apply (Permutation_in _ (sort_npv_perm (filter is_viable ann))) in Hq.
    rewrite <- (firstn_skipn 5 (sort_npv _)) in Hq.
    apply in_app_or in Hq. destruct Hq as [Hq|Hq]; [contradiction | exact Hq].
Qed.

(** X12 on a run of three sites. *)
Lemma report_of_run_witness :
  exists full viable r,
    @run_with_report insertion_by_npv
                     [Sites.sunny; Sites.hamlet; Sites.marginal]
    = Some (full, viable, r) /\
    run_financial_projections [Sites.sunny; Sites.hamlet; Sites.marginal]
    = Some (full, viable) /\
    map origin full = [Sites.sunny; Sites.hamlet; Sites.marginal] /\
    total_sites r = 3%nat /\
    bankable r = List.length viable /\
    (bankable r <= total_sites r)%nat /\
    0 <= bankable_share r <= 1 /\
    (List.length (top_sites r) <= 5)%nat /\
    (forall p, In p (top_sites r) -> In p viable) /\
    (forall p q, In p (top_sites r) -> In q viable -> ~ In q (top_sites r) ->
                 before_desc (npv_10yr_usd p) (npv_10yr_usd q) = true).
Proof.
  assert (Hrun : exists full viable r,
             @run_with_report insertion_by_npv
                              [Sites.sunny; Sites.hamlet; Sites.marginal]
             = Some (full, viable, r)).
  { do 3 eexists. vm_compute. reflexivity. }
  destruct Hrun as [full [viable [r Hrun]]].
  exists full, viable, r. split; [exact Hrun|].
  exact (report_of_run insertion_by_npv _ full viable r Hrun).
Defined.

(** ** Rounding to one decimal *)

Lemma Qfloor_bounds (x : Q) :
  inject_Z (Qfloor x) <= x /\ x < inject_Z (Qfloor x) + 1.
Proof.
  split; [apply Qfloor_le|].
  pose proof (Qlt_floor x) as H. rewrite inject_Z_plus in H. exact H.
Qed.

Lemma rint_near (x : Q) :
  x - (1 # 2) <= inject_Z (rint x) <= x + (1 # 2).
Proof.
  unfold rint. destruct (Qfloor_bounds x) as [Hlo Hhi].
  set (f := Qfloor x) in *.
  destruct (x - inject_Z f ?= 1 # 2) eqn:E.
  - apply Qeq_alt in E.
    destruct (Z.even f); rewrite ?inject_Z_plus;
      change (inject_Z 1) with 1; lra.
  - apply Qlt_alt in E. lra.
  - apply Qgt_alt in E. rewrite inject_Z_plus. change (inject_Z 1) with 1. lra.
Qed.

Lemma rint_of_integer (x : Q) (z : Z) : x == inject_Z z -> rint x = z.
Proof.
  intros Hx. unfold rint.
  assert (Hf : Qfloor x = z).
  { rewrite (Qfloor_comp _ _ Hx). apply Qfloor_Z. }
  rewrite Hf.
  assert (E : (x - inject_Z z ?= 1 # 2) = Lt).
  { apply Qlt_alt.
    assert (H0 : x - inject_Z z == 0) by (rewrite Hx; ring).
    rewrite H0. reflexivity. }
  now rewrite E.
Qed.

(** X13: [round(1)] moves a finite cell by at most 0.05, gives a value
    with one decimal place, and rounding that value again changes
    nothing. *)
Theorem round1_accuracy :
  forall q : Q,
    exists r,
      round1 (Fin q) = Fin r /\
      q - (1 # 20) <= r <= q + (1 # 20) /\
      one_decimal (Fin r) /\
      holds (round1 (Fin r)) r.
Proof.
  intros q. exists (inject_Z (rint (q * 10)) / 10).
  split; [reflexivity|].
  pose proof (rint_near (q * 10)) as [Hlo Hhi].
  repeat apply conj.
  - apply Qle_shift_div_l; lra.
  - apply Qle_shift_div_r; lra.
  - exists (rint (q * 10)). field.
  - simpl.
    assert (Hz : inject_Z (rint (q * 10)) / 10 * 10
                 == inject_Z (rint (q * 10))) by field.
    rewrite (rint_of_integer _ _ Hz). reflexivity.
Qed.

Lemma Qfloor_unit (x : Q) : 0 <= x -> x < 1 -> Qfloor x = 0%Z.
Proof.
  intros H0 H1. destruct (Qfloor_bounds x) as [Hlo Hhi].
  assert (Ha : inject_Z (Qfloor x) < inject_Z 1)
    by (change (inject_Z 1) with 1; lra).
  assert (Hb : inject_Z (-1) < inject_Z (Qfloor x))
    by (change (inject_Z (-1)) with (-1); lra).
  rewrite <- Zlt_Qlt in Ha, Hb. lia.
Qed.

(** X2: a row selected as viable with an NPV below 0.05 is reported with
    NPV 0.0 in the full table and would not pass the filter there: the
    filter reads the table before it is rounded. *)
Theorem small_npv_lost_by_rounding :
  forall (p : projection) (n : Q),
    is_viable p = true ->
    npv_10yr_usd p = Fin n ->
    n < 1 # 20 ->
    holds (npv_10yr_usd (round_columns p)) 0 /\
    is_viable (round_columns p) = false.
Proof.
  intros p n Hv Hn Hsmall.
  unfold is_viable in Hv. apply andb_true_iff in Hv. destruct Hv as [Hpos _].
  rewrite Hn in Hpos. apply fgt_zero in Hpos.
  assert (Hr : rint (n * 10) = 0%Z).
  { unfold rint. rewrite (Qfloor_unit (n * 10)) by lra.
    assert (E : (n * 10 - inject_Z 0 ?= 1 # 2) = Lt)
      by (apply (proj1 (Qlt_alt _ _)); change (inject_Z 0) with 0; lra).
    now rewrite E. }
  unfold is_viable. simpl. rewrite Hn. simpl. rewrite Hr.
  split; reflexivity.
Qed.

(** X2 on the site whose NPV is about two cents. *)
Lemma small_npv_lost_by_rounding_witness :
  exists p n,
    annotated [Sites.marginal] = Some [p] /\
    npv_10yr_usd p = Fin n /\
    holds (npv_10yr_usd (round_columns p)) 0 /\
    is_viable (round_columns p) = false.
Proof.
  do 2 eexists. split; [vm_compute; reflexivity|].
  split; [reflexivity|].
  eapply small_npv_lost_by_rounding; [| reflexivity |]; vm_compute; reflexivity.
Defined.

(** ** Net present value and the two thresholds *)

Lemma annuity_factor_range : 5 < annuity_factor /\ annuity_factor < 7.
Proof. split; reflexivity. Qed.

Lemma npv_of_finite (s : site) (a : projection) (c f : Q) :
  project s = Some a ->
  capex_estimate_usd a = Fin c -> annual_cashflow_usd a = Fin f ->
  npv_10yr_usd a = Fin (- c + f * annuity_factor) /\
  payback_years a = payback_of (Fin c) (Fin f).
Proof.
  intros Hp Hc Hf.
  destruct (project_fields s a Hp) as [_ [_ [_ [_ [_ [Hpay [Hnpv _]]]]]]].
  rewrite Hnpv, Hpay, Hc, Hf. split; reflexivity.
Qed.

(** X14: the NPV of a row with finite CAPEX and cash flow is the sum of
    ten yearly cash flows, the one of year k discounted by 1.12^k, minus
    the CAPEX: the annuity factor of the code is that sum in closed
    form. *)
Theorem npv_is_discounted_sum :
  forall (s : site) (a : projection) (c f : Q),
    project s = Some a ->
    capex_estimate_usd a = Fin c ->
    annual_cashflow_usd a = Fin f ->
    holds (npv_10yr_usd a)
          (- c + fold_right Qplus 0
                   (map (fun k => f / (1 + DISCOUNT_RATE) ^ Z.of_nat k)
                        (seq 1 10))).
Proof.
  intros s a c f Hp Hc Hf.
  destruct (npv_of_finite s a c f Hp Hc Hf) as [-> _]. simpl holds.
  assert (Hsum : annuity_factor
                 == fold_right Qplus 0
                      (map (fun k => 1 / (1 + DISCOUNT_RATE) ^ Z.of_nat k)
                           (seq 1 10))) by reflexivity.
  rewrite Hsum. unfold DISCOUNT_RATE. simpl fold_right. field.
Qed.

Lemma npv_is_discounted_sum_witness :
  exists a c f,
    project Sites.sunny = Some a /\
    capex_estimate_usd a = Fin c /\
    annual_cashflow_usd a = Fin f /\
    holds (npv_10yr_usd a)
          (- c + fold_right Qplus 0
                   (map (fun k => f / (1 + DISCOUNT_RATE) ^ Z.of_nat k)
                        (seq 1 10))).
Proof.
  do 3 eexists. split; [vm_compute; reflexivity|].
  split; [reflexivity|]. split; [reflexivity|].
  eapply (npv_is_discounted_sum Sites.sunny); reflexivity.
Defined.

Lemma viable_finite_row (s : site) (a : projection) (c f : Q) :
  project s = Some a ->
  capex_estimate_usd a = Fin c -> annual_cashflow_usd a = Fin f ->
  (is_viable a = true <-> 0 < f /\ c < f * annuity_factor).
Proof.
  intros Hp Hc Hf.
  destruct (npv_of_finite s a c f Hp Hc Hf) as [Hnpv Hpay].
  destruct annuity_factor_range as [_ Haf].
  unfold is_viable. rewrite Hnpv, Hpay, andb_true_iff, fgt_zero.
  destruct (Qlt_le_dec 0 f) as [Hpos|Hnp].
  - rewrite (payback_of_ratio c f Hpos), flt_finite. split.
    + intros [H _]. split; [exact Hpos | lra].
    + intros [_ H]. split; [lra|].
      apply Qlt_shift_div_r; [exact Hpos|].
      assert (Hb : f * annuity_factor < f * 7)
        by (apply Qmult_lt_l; assumption).
      lra.
  - rewrite (payback_of_sentinel (Fin c) (Fin f) (fgt_nonpositive f Hnp)).
    split.
    + intros [_ H]. discriminate H.
    + intros [H _]. lra.
Qed.

(** X15: for a row with finite CAPEX and cash flow the filter comes down
    to the cash flow being positive and the CAPEX being below the cash flow
    times the annuity factor, that is NPV > 0: the payback then is below
    the annuity factor, which is below 7, so the 7-year threshold never
    excludes a row that the NPV test accepts. *)
Theorem viability_criterion :
  forall (input : list site) (full viable : frame),
    run_financial_projections input = Some (full, viable) ->
    exists ann,
      annotated input = Some ann /\
      viable = filter is_viable ann /\
      Forall (fun a =>
                forall c f,
                  capex_estimate_usd a = Fin c ->
                  annual_cashflow_usd a = Fin f ->
                  (is_viable a = true <-> 0 < f /\ c < f * annuity_factor) /\
                  (0 < f -> c < f * annuity_factor ->
                   exists y, payback_years a = Fin y /\ y < annuity_factor))
             ann.
Proof.
  intros input full viable Hrun.
  destruct (run_some _ _ _ Hrun) as [ann [Hann [_ Hviable]]].
  exists ann. repeat split; try assumption.
  apply Forall_forall. intros a Ha c f Hc Hf.
  destruct (project_all_In _ _ _ Hann Ha) as [s [_ Hp]].
  split; [now apply (viable_finite_row s)|].
  intros Hpos Hlt.
  destruct (npv_of_finite s a c f Hp Hc Hf) as [_ Hpay].
  exists (c / f). split.
  - rewrite Hpay. now apply payback_of_ratio.
  - apply Qlt_shift_div_r; [exact Hpos|]. lra.
Qed.

Lemma viability_criterion_witness :
  exists full viable ann,
    run_financial_projections [Sites.sunny; Sites.hamlet] = Some (full, viable) /\
    annotated [Sites.sunny; Sites.hamlet] = Some ann /\
    viable = filter is_viable ann /\
    Forall (fun a =>
              forall c f,
                capex_estimate_usd a = Fin c ->
                annual_cashflow_usd a = Fin f ->
                (is_viable a = true <-> 0 < f /\ c < f * annuity_factor) /\
                (0 < f -> c < f * annuity_factor ->
                 exists y, payback_years a = Fin y /\ y < annuity_factor))
           ann.
Proof.
  assert (Hrun : exists full viable,
             run_financial_projections [Sites.sunny; Sites.hamlet]
             = Some (full, viable)).
  { do 2 eexists. vm_compute. reflexivity. }
  destruct Hrun as [full [viable Hrun]].
  destruct (viability_criterion _ _ _ Hrun) as [ann H].
  exists full, viable, ann. split; [exact Hrun | exact H].
Defined.

(** ** Sites without customers *)

Lemma sgn_zero (x : Q) : x == 0 -> (x ?= 0) = Eq.
Proof. intros H. now apply Qeq_alt. Qed.

Lemma fmul_zero_l (x : Q) (m : fl) : x == 0 -> zero_or_nan (fmul (Fin x) m).
Proof.
  intros Hx. destruct m as [y| | |]; simpl; rewrite ?(sgn_zero x Hx);
    try exact I.
  rewrite Hx. ring.
Qed.

Lemma fmul_zero_or_nan (z : fl) (k : Q) :
  zero_or_nan z -> zero_or_nan (fmul z (Fin k)).
Proof.
  destruct z as [x| | |]; simpl; try contradiction; [|trivial].
  intros Hx. rewrite Hx. ring.
Qed.

Lemma fsub_zero_or_nan (r : Q) (z : fl) :
  r == 0 -> zero_or_nan z -> zero_or_nan (fsub (Fin r) z).
Proof.
  intros Hr. destruct z as [x| | |]; simpl; try contradiction; [|trivial].
  intros Hx. rewrite Hr, Hx. ring.
Qed.

Lemma zero_or_nan_not_positive (z : fl) :
  zero_or_nan z -> fgt z (Fin 0) = false.
Proof.
  destruct z as [x| | |]; simpl; try contradiction; [|reflexivity].
  intros Hx. apply fgt_nonpositive. rewrite Hx. apply Qle_refl.
Qed.

Lemma fdiv_zero_l (x : Q) (y : fl) : x == 0 -> zero_or_nan (fdiv (Fin x) y).
Proof.
  intros Hx. destruct y as [q| | |]; simpl; try reflexivity; try exact I.
  destruct (Qeq_bool q 0) eqn:E.
  - rewrite (sgn_zero x Hx). exact I.
  - simpl. rewrite Hx. field. intros H. apply Qeq_bool_iff in H. congruence.
Qed.

Lemma project_sizing (s : site) (a : projection) :
  project s = Some a ->
  system_size_kw a
  = fmul (fdiv (estimated_demand_kwh_day a)
               (fmul (fdiv (replace_value 0 BASELINE_GHI
                              (fillna BASELINE_GHI (solar_ghi s)))
                           (Fin BASELINE_GHI))
                     (Fin 4)))
         (Fin SYSTEM_OVERSIZING) /\
  capex_estimate_usd a
  = fmul (fmul (system_size_kw a) (Fin CAPEX_PER_KW))
         (fadd (Fin 1)
               (fmul (fdiv (distance_to_grid_km s) (Fin 100)) (Fin 0.1))) /\
  revenue_annual_usd a
  = fmul (fmul (fmul (estimated_demand_kwh_day a) (Fin 365))
               (Fin TARIFF_PER_KWH))
         (Fin COLLECTION_RATE).
Proof.
  unfold project.
  destruct (astype_int _) as [customers|]; [|discriminate].
  intros [= <-]. repeat split.
Qed.

Lemma no_customers_row (s : site) (a : projection) :
  project s = Some a -> estimated_customers a = 0%Z ->
  holds (estimated_demand_kwh_day a) 0 /\
  holds (revenue_annual_usd a) 0 /\
  zero_or_nan (system_size_kw a) /\
  zero_or_nan (capex_estimate_usd a) /\
  zero_or_nan (annual_cashflow_usd a) /\
  payback_years a = Fin 999 /\
  is_viable a = false.
Proof.
  intros Hp H0.
  destruct (project_fields s a Hp)
    as [_ [_ [Hd [Hopex [Hcf [Hpay _]]]]]].
  destruct (project_sizing s a Hp) as [Hsize [Hcapex Hrev]].
  rewrite H0 in Hd. rewrite Hd in Hsize, Hrev.
  assert (Zsize : zero_or_nan (system_size_kw a)).
  { rewrite Hsize. apply fmul_zero_or_nan, fdiv_zero_l. reflexivity. }
  assert (Zcapex : zero_or_nan (capex_estimate_usd a)).
  { rewrite Hcapex.
    pose proof (fmul_zero_or_nan _ CAPEX_PER_KW Zsize) as H.
    destruct (fmul (system_size_kw a) (Fin CAPEX_PER_KW)) as [x| | |];
      try contradiction.
    - now apply fmul_zero_l.
    - exact I. }
  assert (Zrev : holds (revenue_annual_usd a) 0)
    by (rewrite Hrev; reflexivity).
  assert (Zcash : zero_or_nan (annual_cashflow_usd a)).
  { rewrite Hcf, Hopex.
    destruct (revenue_annual_usd a) as [r| | |]; try contradiction.
    apply fsub_zero_or_nan; [exact Zrev|]. now apply fmul_zero_or_nan. }
  assert (H999 : payback_years a = Fin 999).
  { rewrite Hpay. apply payback_of_sentinel.
    now apply zero_or_nan_not_positive. }
  repeat apply conj; try assumption.
  - rewrite Hd. reflexivity.
  - unfold is_viable. rewrite H999. apply andb_false_r.
Qed.

(** X16: a site whose population yields no customer has demand and
    revenue 0, a system size, CAPEX and cash flow that are 0 (or undefined
    when its distance to the grid is), the sentinel 999 as payback, and is
    never in the viable subset. *)
Theorem no_customers_not_viable :
  forall (input : list site) (full viable : frame),
    run_financial_projections input = Some (full, viable) ->
    exists ann,
      annotated input = Some ann /\
      viable = filter is_viable ann /\
      Forall (fun a =>
                estimated_customers a = 0%Z ->
                holds (estimated_demand_kwh_day a) 0 /\
                holds (revenue_annual_usd a) 0 /\
                zero_or_nan (system_size_kw a) /\
                zero_or_nan (capex_estimate_usd a) /\
                zero_or_nan (annual_cashflow_usd a) /\
                payback_years a = Fin 999 /\
                ~ In a viable)
             ann.
Proof.
  intros input full viable Hrun.
  destruct (run_some _ _ _ Hrun) as [ann [Hann [_ Hviable]]].
  exists ann. repeat split; try assumption.
  apply Forall_forall. intros a Ha H0.
  destruct (project_all_In _ _ _ Hann Ha) as [s [_ Hp]].
  destruct (no_customers_row s a Hp H0)
    as [Hd [Hr [Hs [Hc [Hf [Hpay Hnv]]]]]].
  repeat apply conj; try assumption.
  rewrite Hviable, filter_In. intros [_ H]. congruence.
Qed.

Lemma no_customers_not_viable_witness :
  exists full viable ann,
    run_financial_projections [Sites.deserted; Sites.sunny]
    = Some (full, viable) /\
    annotated [Sites.deserted; Sites.sunny] = Some ann /\
    viable = filter is_viable ann /\
    Forall (fun a =>
              estimated_customers a = 0%Z ->
              holds (estimated_demand_kwh_day a) 0 /\
              holds (revenue_annual_usd a) 0 /\
              zero_or_nan (system_size_kw a) /\
              zero_or_nan (capex_estimate_usd a) /\
              zero_or_nan (annual_cashflow_usd a) /\
              payback_years a = Fin 999 /\
              ~ In a viable)
           ann.
Proof.
  assert (Hrun : exists full viable,
             run_financial_projections [Sites.deserted; Sites.sunny]
             = Some (full, viable)).
  { do 2 eexists. vm_compute. reflexivity. }
  destruct Hrun as [full [viable Hrun]].
  destruct (no_customers_not_viable _ _ _ Hrun) as [ann H].
  exists full, viable, ann. split; [exact Hrun | exact H].
Defined.

(** ** Irradiance and distance *)

Lemma fdiv_finite (x y : Q) : ~ y == 0 -> fdiv (Fin x) (Fin y) = Fin (x / y).
Proof.
  intros Hy. simpl. destruct (Qeq_bool y 0) eqn:E; [|reflexivity].
  apply Qeq_bool_iff in E. contradiction.
Qed.

(** X17: a site whose irradiance is missing or 0 gets every column that a
    site with the baseline irradiance 5.5 and otherwise the same data
    gets; at the baseline the system size is the daily demand divided by 4
    peak-sun hours, times the oversizing 1.45. *)
Theorem missing_ghi_is_baseline :
  forall (n st : String.string) (p d g : fl) (a : projection),
    g = NaN \/ holds g 0 ->
    project (mkSite n st p g d) = Some a ->
    exists b,
      project (mkSite n st p (Fin BASELINE_GHI) d) = Some b /\
      estimated_customers a = estimated_customers b /\
      estimated_demand_kwh_day a = estimated_demand_kwh_day b /\
      system_size_kw a = system_size_kw b /\
      capex_estimate_usd a = capex_estimate_usd b /\
      opex_annual_usd a = opex_annual_usd b /\
      revenue_annual_usd a = revenue_annual_usd b /\
      annual_cashflow_usd a = annual_cashflow_usd b /\
      payback_years a = payback_years b /\
      npv_10yr_usd a = npv_10yr_usd b /\
      simple_yield_percent a = simple_yield_percent b /\
      holds (system_size_kw a)
            (inject_Z (estimated_customers a) * DAILY_KWH_PER_CUSTOMER / 4
             * SYSTEM_OVERSIZING).
Proof.
  intros n st p d g a Hg.
  assert (HG : replace_value 0 BASELINE_GHI (fillna BASELINE_GHI g)
               = Fin BASELINE_GHI).
  { destruct Hg as [-> | Hg]; [reflexivity|].
    destruct g as [q| | |]; try contradiction. simpl in Hg. simpl.
    apply Qeq_bool_iff in Hg. now rewrite Hg. }
  unfold project. cbn [pop solar_ghi distance_to_grid_km].
  rewrite HG.
  change (replace_value 0 BASELINE_GHI (fillna BASELINE_GHI (Fin BASELINE_GHI)))
    with (Fin BASELINE_GHI).
  destruct (astype_int _) as [customers|]; [|discriminate].
  intros [= <-]. eexists. split; [reflexivity|].
  cbn [estimated_customers estimated_demand_kwh_day system_size_kw
       capex_estimate_usd opex_annual_usd revenue_annual_usd
       annual_cashflow_usd payback_years npv_10yr_usd simple_yield_percent].
  repeat split. simpl. unfold BASELINE_GHI, DAILY_KWH_PER_CUSTOMER,
    SYSTEM_OVERSIZING. field.
Qed.

Lemma missing_ghi_is_baseline_witness :
  exists a b,
    project Sites.deserted = Some a /\
    project (mkSite (name Sites.deserted) (state Sites.deserted) (Fin 0)
                    (Fin BASELINE_GHI) (Fin 250)) = Some b /\
    system_size_kw a = system_size_kw b /\
    capex_estimate_usd a = capex_estimate_usd b /\
    npv_10yr_usd a = npv_10yr_usd b.
Proof.
  assert (Ha : exists a, project Sites.deserted = Some a)
    by (eexists; vm_compute; reflexivity).
  destruct Ha as [a Ha].
  destruct (missing_ghi_is_baseline _ _ _ _ NaN a (or_introl eq_refl) Ha)
    as [b [Hb [_ [_ [Hs [Hc [_ [_ [_ [_ [Hn _]]]]]]]]]]].
  exists a, b. repeat split; assumption.
Defined.

Lemma truncate_nonneg_sign (x : Q) :
  0 <= x -> (0 <= Z.quot (Qnum x) (Z.pos (Qden x)))%Z.
Proof.
  intros Hx. rewrite truncate_nonneg by exact Hx.
  change 0%Z with (Qfloor 0). now apply Qfloor_resp_le.
Qed.

(** The finite columns of a site with a population that is not negative,
    a positive irradiance and a finite distance. *)
Lemma project_regular (n st : String.string) (p g d : Q) (a : projection) :
  0 <= p -> 0 < g ->
  project (mkSite n st (Fin p) (Fin g) (Fin d)) = Some a ->
  exists size,
    0 <= size /\
    size == inject_Z (estimated_customers a) * DAILY_KWH_PER_CUSTOMER
            / (g / BASELINE_GHI * 4) * SYSTEM_OVERSIZING /\
    estimated_customers a
    = Qfloor (p / AVG_HOUSEHOLD_SIZE * CUSTOMER_PENETRATION) /\
    system_size_kw a = Fin size /\
    capex_estimate_usd a
    = Fin (size * CAPEX_PER_KW * (1 + d / 100 * 0.1)) /\
    annual_cashflow_usd a
    = Fin (inject_Z (estimated_customers a) * DAILY_KWH_PER_CUSTOMER * 365
           * TARIFF_PER_KWH * COLLECTION_RATE
           - size * CAPEX_PER_KW * (1 + d / 100 * 0.1) * OPEX_PERCENT).
Proof.
  intros Hp Hg Ha.
  destruct (project_fields _ a Ha) as [_ [Hc [Hd [Hopex [Hcf _]]]]].
  destruct (project_sizing _ a Ha) as [Hsize [Hcapex Hrev]].
  cbn [pop solar_ghi distance_to_grid_km] in *.
  assert (Hx : 0 <= p / AVG_HOUSEHOLD_SIZE * CUSTOMER_PENETRATION).
  { unfold AVG_HOUSEHOLD_SIZE, CUSTOMER_PENETRATION.
    apply Qmult_le_0_compat; [|lra]. apply Qle_shift_div_l; lra. }
  assert (Hcust : estimated_customers a
                  = Qfloor (p / AVG_HOUSEHOLD_SIZE * CUSTOMER_PENETRATION)).
  { rewrite (customers_of_population _ a p Ha eq_refl). cbv zeta.
    now apply truncate_nonneg. }
  assert (Hcpos : 0 <= inject_Z (estimated_customers a)).
  { rewrite Hcust. change 0 with (inject_Z (Qfloor 0)).
    rewrite <- Zle_Qle. now apply Qfloor_resp_le. }
  assert (HG : replace_value 0 BASELINE_GHI (fillna BASELINE_GHI (Fin g))
               = Fin g).
  { simpl. destruct (Qeq_bool g 0) eqn:E; [|reflexivity].
    apply Qeq_bool_iff in E. lra. }
  rewrite HG in Hsize.
  assert (Hgf : ~ g / BASELINE_GHI * 4 == 0).
  { unfold BASELINE_GHI. intros H.
    assert (0 < g / 5.5) by (apply Qlt_shift_div_l; lra). lra. }
  rewrite Hd in Hsize.
  rewrite (fdiv_finite g BASELINE_GHI) in Hsize by discriminate.
  cbn [fmul] in Hsize. rewrite (fdiv_finite _ _ Hgf) in Hsize.
  cbn [fmul] in Hsize.
  eexists. split; [|split; [reflexivity|]].
  - unfold SYSTEM_OVERSIZING, DAILY_KWH_PER_CUSTOMER.
    apply Qmult_le_0_compat; [|lra].
    apply Qle_shift_div_l.
    + unfold BASELINE_GHI.
      assert (0 < g / 5.5) by (apply Qlt_shift_div_l; lra). lra.
    + lra.
  - split; [exact Hcust|]. split; [exact Hsize|].
    rewrite Hsize in Hcapex.
    rewrite (fdiv_finite d 100) in Hcapex by discriminate.
    cbn [fmul fadd] in Hcapex.
    split; [exact Hcapex|].
    rewrite Hcf, Hopex, Hrev, Hcapex, Hd. reflexivity.
Qed.

(** X18: stage 2 charges for distance: of two sites with the same
    population (not negative) and the same positive irradiance, the one
    farther from the grid has at least the CAPEX and at most the NPV of the
    other. *)
Theorem farther_costs_more :
  forall (n1 n2 st1 st2 : String.string) (p g d1 d2 : Q)
         (a1 a2 : projection),
    0 <= p -> 0 < g -> d1 <= d2 ->
    project (mkSite n1 st1 (Fin p) (Fin g) (Fin d1)) = Some a1 ->
    project (mkSite n2 st2 (Fin p) (Fin g) (Fin d2)) = Some a2 ->
    exists c1 c2 v1 v2,
      capex_estimate_usd a1 = Fin c1 /\
      capex_estimate_usd a2 = Fin c2 /\
      c1 <= c2 /\
      npv_10yr_usd a1 = Fin v1 /\
      npv_10yr_usd a2 = Fin v2 /\
      v2 <= v1.
Proof.
  intros n1 n2 st1 st2 p g d1 d2 a1 a2 Hp Hg Hd H1 H2.
  destruct (project_regular _ _ _ _ _ _ Hp Hg H1)
    as [s1 [Hs1 [Es1 [Hc1 [_ [Hcap1 Hcf1]]]]]].
  destruct (project_regular _ _ _ _ _ _ Hp Hg H2)
    as [s2 [Hs2 [Es2 [Hc2 [_ [Hcap2 Hcf2]]]]]].
  assert (Hcust : estimated_customers a1 = estimated_customers a2)
    by congruence.
  assert (Hs : s1 == s2) by (rewrite Es1, Es2, Hcust; reflexivity).
  destruct (npv_of_finite _ a1 _ _ H1 Hcap1 Hcf1) as [Hn1 _].
  destruct (npv_of_finite _ a2 _ _ H2 Hcap2 Hcf2) as [Hn2 _].
  do 4 eexists.
  split; [exact Hcap1|]. split; [exact Hcap2|].
  assert (Hcap : s1 * CAPEX_PER_KW * (1 + d1 / 100 * 0.1)
                 <= s2 * CAPEX_PER_KW * (1 + d2 / 100 * 0.1)).
  { rewrite Hs. unfold CAPEX_PER_KW.
    rewrite !(Qmult_comm (s2 * 3000.0)).
    assert (E : forall d, d / 100 * 0.1 == d * (1 # 1000))
      by (intros d; field).
    apply Qmult_le_compat_r; [rewrite !E; lra|].
    apply Qmult_le_0_compat; lra. }
  split; [exact Hcap|]. split; [exact Hn1|]. split; [exact Hn2|].
  destruct annuity_factor_range as [Haf _].
  rewrite Hcust.
  set (rev := inject_Z (estimated_customers a2) * DAILY_KWH_PER_CUSTOMER
              * 365 * TARIFF_PER_KWH * COLLECTION_RATE).
  set (k1 := s1 * CAPEX_PER_KW * (1 + d1 / 100 * 0.1)) in *.
  set (k2 := s2 * CAPEX_PER_KW * (1 + d2 / 100 * 0.1)) in *.
  unfold OPEX_PERCENT.
  assert (Hprod : (k2 - k1) * 0.04 * annuity_factor >= 0).
  { apply Qmult_le_0_compat; lra. }
  lra.
Qed.

(** X18 on the village and the same village one kilometre away. *)
Lemma farther_costs_more_witness :
  exists a1 a2 c1 c2 v1 v2,
    project Sites.village = Some a1 /\
    project Sites.roadside = Some a2 /\
    capex_estimate_usd a1 = Fin c1 /\
    capex_estimate_usd a2 = Fin c2 /\
    c1 <= c2 /\
    npv_10yr_usd a1 = Fin v1 /\
    npv_10yr_usd a2 = Fin v2 /\
    v2 <= v1.
Proof.
  assert (H1 : exists a1, project Sites.village = Some a1)
    by (eexists; vm_compute; reflexivity).
  assert (H2 : exists a2, project Sites.roadside = Some a2)
    by (eexists; vm_compute; reflexivity).
  destruct H1 as [a1 H1]. destruct H2 as [a2 H2].
  assert (Hp : 0 <= 1000) by discriminate.
  assert (Hg : 0 < 5.5) by reflexivity.
  assert (Hd : 0 <= 1) by discriminate.
  destruct (farther_costs_more _ _ _ _ 1000 5.5 0 1 a1 a2 Hp Hg Hd H1 H2)
    as [c1 [c2 [v1 [v2 H]]]].
  exists a1, a2, c1, c2, v1, v2. split; [exact H1|]. split; [exact H2|].
  exact H.
Defined.

End FinanceFacts.
